(** * layer-webhooks-services: the webhook listener and the receipts service

    A shallow embedding of [src/listen.js] and [src/receipts.js] (both
    revisions of the latter), and the properties of the receipt-tracking
    engine proved over it.

    Conventions of the embedding:
    - JavaScript strings are [string]; an optional property is an [option];
    - an ordinary object used as a map (the [recipient_status] of a
      message) is the list of its own properties in creation order, and
      [Object_keys] enumerates them the way the language does: array-index
      keys first, in ascending numeric order, then the other keys in
      creation order;
    - the Redis client is a finite map from keys to JSON texts;
    - the Kue queue is the list of the jobs created, oldest first;
    - a handler returns what it did: the Redis commands it sent, the jobs
      it created, the identity lookups it left waiting, how often it called
      [done], and whether an exception left it;
    - the packages the modules call ([ms], [crypto], the serializer of the
      request body) are parameters. *)

From Stdlib Require Import DecimalString NArith ZArith.
From stdpp Require Import gmap strings list sorting.

Open Scope string_scope.
Open Scope list_scope.

(** ** JavaScript values and truthiness *)

(** The values a duration option can take: absent, a number, or a string. *)
Inductive jsval :=
| JUndefined
| JNumber (n : Z)
| JString (s : string).

Definition jsval_truthy (v : jsval) : bool :=
  match v with
  | JUndefined => false
  | JNumber n => negb (n =? 0)%Z
  | JString s => negb (String.eqb s "")
  end.

(** Truthiness of an optional string property: [undefined] and the empty
    string are falsy. *)
Definition truthy (o : option string) : bool :=
  match o with
  | Some s => negb (String.eqb s "")
  | None => false
  end.

(** [a.indexOf(b) === 0] on strings. *)
Definition starts_with (p s : string) : bool := String.prefix p s.

(** [a.indexOf(x) !== -1] on an array of strings (strict equality). *)
Definition includes (a : list string) (x : string) : bool :=
  existsb (String.eqb x) a.

(** ** Ordinary objects used as maps *)

Module JSObject.

(** Own properties, in creation order. *)
Definition t := list (string * string).

Definition wf (o : t) : Prop := NoDup (o.*1).

(** [o[k]] *)
Fixpoint get (o : t) (k : string) : option string :=
  match o with
  | [] => None
  | (k', v) :: o' => if String.eqb k k' then Some v else get o' k
  end.

(** [o[k] = v]: an existing property keeps its place, a new one is
    created last. *)
Fixpoint set (o : t) (k v : string) : t :=
  match o with
  | [] => [(k, v)]
  | (k', v') :: o' =>
      if String.eqb k k' then (k', v) :: o' else (k', v') :: set o' k v
  end.

(** A property key is an array index when it is the canonical decimal
    form of an integer below 2^32 - 1. *)
Definition array_index (k : string) : option N :=
  match NilEmpty.uint_of_string k with
  | Some u =>
      let n := N.of_uint u in
      if String.eqb (NilEmpty.string_of_uint (N.to_uint n)) k
         && (n <? 4294967295)%N
      then Some n
      else None
  | None => None
  end.

Definition is_index (k : string) : bool :=
  match array_index k with Some _ => true | None => false end.

Definition index_of (k : string) : N := default 0%N (array_index k).

Definition index_le (a b : string) : Prop := (index_of a <= index_of b)%N.

Fixpoint insert_index (k : string) (l : list string) : list string :=
  match l with
  | [] => [k]
  | h :: t =>
      if (index_of k <=? index_of h)%N then k :: h :: t
      else h :: insert_index k t
  end.

Fixpoint sort_index (l : list string) : list string :=
  match l with
  | [] => []
  | k :: t => insert_index k (sort_index t)
  end.

(** The order of [Object.keys], [for-in] and [JSON.stringify]. *)
Definition own_keys (ks : list string) : list string :=
  sort_index (filter (fun k => is_index k = true) ks)
  ++ filter (fun k => is_index k = false) ks.

Definition Object_keys (o : t) : list string := own_keys (o.*1).

(** The members [JSON.stringify] writes, in the order it writes them. *)
Definition members (o : t) : list (string * string) :=
  omap (fun k => (fun v => (k, v)) <$> get o k) (Object_keys o).

(** The object [JSON.parse] builds from the members of a JSON text. *)
Definition of_members (ms : list (string * string)) : t :=
  foldl (fun o kv => set o kv.1 kv.2) [] ms.

End JSObject.

(** ** Messages, JSON texts and queue jobs *)

(** [message.sender]: a user sends with [user_id], the Platform API with
    [name]. *)
Record Sender := {
  user_id : option string;
  sender_name : option string
}.

(** A REST Message object; [parts] stands for the fields the services
    never look at. *)
Record Message := {
  id : string;
  sender : Sender;
  recipient_status : JSObject.t;
  parts : string
}.

(** The JSON text of a message: its members in the order they are
    written. *)
Record JsonText := {
  json_id : string;
  json_sender : Sender;
  json_recipient_status : list (string * string);
  json_parts : string
}.

Definition JSON_stringify (m : Message) : JsonText :=
  {| json_id := id m;
     json_sender := sender m;
     json_recipient_status := JSObject.members (recipient_status m);
     json_parts := parts m |}.

Definition JSON_parse (j : JsonText) : Message :=
  {| id := json_id j;
     sender := json_sender j;
     recipient_status := JSObject.of_members (json_recipient_status j);
     parts := json_parts j |}.

(** An identity record of the Layer Identity Server, opaque here. *)
Definition Identity := string.

(** The [job.data] of the three kinds of job the services create. *)
Inductive JobData :=
| EventData (title timestamp type : string)
            (conversation : option string) (message : option Message)
| DelayedData (title messageId : string)
| ReceiptData (message : Message) (recipients : list string)
              (identities : option (gmap string (option Identity))).

(** A job as [queue.createJob(type, data)] and the chained calls leave it.
    [job_delay] is [None] when [.delay] is not called. *)
Record Job := {
  job_type : string;
  job_data : JobData;
  job_delay : option jsval;
  job_attempts : nat;
  job_backoff : string * Z
}.

(** The commands sent to the Redis client. [RedisSet] carries the expiry
    options of the call, [None] when [set] is called with a key and a
    value only. *)
Inductive RedisOp :=
| RedisSet (key : string) (value : JsonText) (expiry : option Z)
| RedisGet (key : string)
| RedisDel (key : string).

Definition redis_apply (redis : gmap string JsonText) (op : RedisOp)
  : gmap string JsonText :=
  match op with
  | RedisSet k v _ => <[k := v]> redis
  | RedisGet _ => redis
  | RedisDel k => delete k redis
  end.

Definition redis_run (redis : gmap string JsonText) (ops : list RedisOp)
  : gmap string JsonText :=
  foldl redis_apply redis ops.

Definition op_key (op : RedisOp) : string :=
  match op with
  | RedisSet k _ _ => k
  | RedisGet k => k
  | RedisDel k => k
  end.

(** The fan-out of identity lookups of one evaluation, waiting for the
    callbacks: the closure variables of [processMessage]. *)
Record Join := {
  join_message : Message;
  join_recipients : list string;
  join_identities : list string;
  join_getUser : string -> option Identity;
  identityHash : gmap string (option Identity);
  count : nat
}.

(** What a queue processor did: the Redis commands it sent, the jobs it
    created, the lookups it left waiting, how often it called [done], and
    whether an exception left the handler. *)
Record Outcome := {
  out_ops : list RedisOp;
  out_jobs : list Job;
  out_pending : option Join;
  out_done : nat;
  out_thrown : bool
}.

Definition data_type (d : JobData) : option string :=
  match d with
  | EventData _ _ type _ _ => Some type
  | _ => None
  end.

(** [job.data.message]: an event payload may lack it, a notification
    payload has it, a delayed-check payload has none. *)
Definition data_message (d : JobData) : option Message :=
  match d with
  | EventData _ _ _ _ message => message
  | DelayedData _ _ => None
  | ReceiptData message _ _ => Some message
  end.

Definition data_messageId (d : JobData) : string :=
  match d with
  | DelayedData _ messageId => messageId
  | _ => "undefined"
  end.

Definition REDIS_PREFIX : string := "layer-webhooks-".

(** ** listen.js *)

Module Listen.

Record HookDef := {
  name : string;
  path : string;
  delay : jsval
}.

(** [req.body] of a webhook POST. *)
Record Body := {
  event_type : string;
  event_created_at : string;
  config_name : string;
  conversation : option string;
  message : option Message
}.

Record Request := {
  body : Body;
  signature : option string   (* req.get('layer-webhook-signature') *)
}.

Section Handlers.

(** Library functions the module calls: the [ms] package, the
    serializer, [unescape(encodeURIComponent(_))] and
    [crypto.createHmac('sha1', secret).update(_).digest('hex')]. *)
Variable ms : jsval -> jsval.
Variable stringify : Body -> string.
Variable utf8safe : string -> string.
Variable hmac_sha1_hex : string -> string -> string.

Variable secret : string.
Variable hookDef : HookDef.

Definition webhookName : string := name hookDef.

Definition hook_path : string :=
  if starts_with "/" (path hookDef) then path hookDef
  else "/" +:+ path hookDef.

Definition hook_delay : jsval :=
  if jsval_truthy (delay hookDef) then ms (delay hookDef) else JNumber 0.

(** [app.get(path, ...)]: status and body. *)
Definition get_handler (verification_challenge : option string)
  : nat * string :=
  if truthy verification_challenge
  then (200, default "" verification_challenge)
  else (200, "OK").

Definition computed_hash (req : Request) : string :=
  hmac_sha1_hex secret (utf8safe (stringify (body req))).

(** [handleValidation]: [true] calls [next()], [false] answers 403. *)
Definition handleValidation (req : Request) : bool :=
  match signature req with
  | Some s => String.eqb (computed_hash req) s
  | None => false
  end.

(** The foreign-hook test of the POST handler. *)
Definition foreign (req : Request) : bool :=
  negb (String.eqb (config_name (body req)) webhookName)
  && negb (starts_with (config_name (body req) +:+ ":") webhookName).

(** The guard around [queue.createJob]. *)
Definition not_a_bot (req : Request) : bool :=
  match message (body req) with
  | None => true
  | Some m => truthy (user_id (sender m))
  end.

Definition event_job (req : Request) : Job :=
  {| job_type := webhookName;
     job_data := EventData webhookName
                   (event_created_at (body req))
                   (event_type (body req))
                   (conversation (body req))
                   (message (body req));
     job_delay := Some hook_delay;
     job_attempts := 10;
     job_backoff := ("exponential", 10000%Z) |}.

(** The last handler of [app.post]: status sent and jobs created. *)
Definition post_handler (req : Request) : nat * list Job :=
  if foreign req then (400, [])
  else (200, if not_a_bot req then [event_job req] else []).

(** [app.post(path, jsonParser, handleValidation, handler)]. *)
Definition app_post (req : Request) : nat * list Job :=
  if handleValidation req then post_handler req else (403, []).

End Handlers.

End Listen.

(** ** receipts.js, the revision with identities *)

Module Receipts.

(** [hook.receipts.identities]: falsy, a function, or another truthy
    value. *)
Inductive IdentitiesOption :=
| IdentitiesOff
| IdentitiesOn
| IdentitiesFunction (getUser : string -> option Identity).

Record ReceiptsConfig := {
  delay : jsval;
  reportForStatus : list string;
  identities : IdentitiesOption
}.

(** A hook as the caller passes it in [options.hooks]. *)
Record HookInput := {
  in_name : string;
  in_path : string;
  in_events : list string;
  in_delay : jsval;
  in_receipts : ReceiptsConfig
}.

(** A hook as [options.hooks.map] rebuilds it. *)
Record Hook := {
  name : string;
  originalName : string;
  path : string;
  events : list string;
  receipts : ReceiptsConfig
}.

(** A reply of [layerClient.identities.get]. *)
Inductive Response :=
| ResponseError (err : string)
| ResponseBody (body : Identity).

Section Service.

Variable ms : jsval -> jsval.
Variable layerClient : string -> Response.

Definition map_hook (hook : HookInput) : Hook :=
  {| name := in_name hook +:+ ":receipts";
     originalName := in_name hook;
     path := in_path hook;
     events := in_events hook;
     receipts :=
       {| delay := ms (in_delay hook);
          reportForStatus := reportForStatus (in_receipts hook);
          identities := identities (in_receipts hook) |} |}.


Variable hook : Hook.

Definition snapshot_key (messageId : string) : string :=
  ((REDIS_PREFIX +:+ name hook) +:+ "-") +:+ messageId.

Definition delayed_job (message : Message) : Job :=
  {| job_type := name hook +:+ " delayed-job";
     job_data := DelayedData "Process undelivered message" (id message);
     job_delay := Some (delay (receipts hook));
     job_attempts := 10;
     job_backoff := ("exponential", 1000%Z) |}.

(** [queue.process(hook.name, 50, ...)]. The [finally] block calls [done]
    on every path, after the [return done()] of the sender guard too, and
    it does not catch: reading [sender] of an absent message throws, and
    the exception leaves the handler after [done]. *)
Definition process_event (data : JobData) : Outcome :=
  match data_message data with
  | None =>
      {| out_ops := []; out_jobs := []; out_pending := None;
         out_done := 1; out_thrown := true |}
  | Some message =>
      if truthy (sender_name (sender message)) then
        {| out_ops := []; out_jobs := []; out_pending := None;
           out_done := 2; out_thrown := false |}
      else
        let type := default "undefined" (data_type data) in
        if String.eqb type "message.sent" then
          {| out_ops := [RedisSet (snapshot_key (id message))
                                  (JSON_stringify message) None];
             out_jobs := [delayed_job message];
             out_pending := None; out_done := 1; out_thrown := false |}
        else if String.eqb type "message.delivered"
                || String.eqb type "message.read" then
          {| out_ops := [RedisSet (snapshot_key (id message))
                                  (JSON_stringify message) None];
             out_jobs := []; out_pending := None;
             out_done := 1; out_thrown := false |}
        else if String.eqb type "message.deleted" then
          {| out_ops := [RedisDel (snapshot_key (id message))];
             out_jobs := []; out_pending := None;
             out_done := 1; out_thrown := false |}
        else
          {| out_ops := []; out_jobs := []; out_pending := None;
             out_done := 1; out_thrown := false |}
  end.

Definition getUserFromIdentities (userId : string) : option Identity :=
  match layerClient userId with
  | ResponseError _ => None
  | ResponseBody body => Some body
  end.

Definition createJob (message : Message) (recipients : list string)
    (identities : gmap string (option Identity)) : Job :=
  {| job_type := originalName hook;
     job_data := ReceiptData message recipients (Some identities);
     job_delay := None;
     job_attempts := 10;
     job_backoff := ("exponential", 1000%Z) |}.

(** The recipients [processMessage] keeps. *)
Definition watched (message : Message) (userId : string) : bool :=
  match JSObject.get (recipient_status message) userId with
  | Some status => includes (reportForStatus (receipts hook)) status
  | None => false
  end.

Definition filter_recipients (message : Message) : list string :=
  List.filter (watched message)
    (JSObject.Object_keys (recipient_status message)).

(** [processMessage]: the jobs it creates itself and the lookups it
    starts; what the callbacks of the lookups do is [on_reply] below,
    whether they run later or, for a function that calls back at once,
    inside the [forEach]. An absent [sender.user_id] is the key
    ["undefined"]. *)
Definition processMessage (message : Message) : list Job * option Join :=
  let recipients := filter_recipients message in
  match recipients with
  | [] => ([], None)
  | _ :: _ =>
      let ids := default "undefined" (user_id (sender message)) :: recipients in
      let waiting getUser :=
        {| join_message := message;
           join_recipients := recipients;
           join_identities := ids;
           join_getUser := getUser;
           identityHash := ∅;
           count := 0 |} in
      match identities (receipts hook) with
      | IdentitiesOff => ([createJob message recipients ∅], None)
      | IdentitiesOn => ([], Some (waiting getUserFromIdentities))
      | IdentitiesFunction getUser => ([], Some (waiting getUser))
      end
  end.

(** [queue.process(hook.name + ' delayed-job', ...)] with the reply of
    [redis.get]. *)
Definition process_delayed_job (redis : gmap string JsonText)
    (data : JobData) : Outcome :=
  let messageId := data_messageId data in
  match redis !! snapshot_key messageId with
  | Some reply =>
      let '(jobs, pending) := processMessage (JSON_parse reply) in
      {| out_ops := [RedisGet (snapshot_key messageId);
                     RedisDel (snapshot_key messageId)];
         out_jobs := jobs; out_pending := pending;
         out_done := 1; out_thrown := false |}
  | None =>
      {| out_ops := [RedisGet (snapshot_key messageId)];
         out_jobs := []; out_pending := None;
         out_done := 1; out_thrown := false |}
  end.

(** The callback [processMessage] hands to [getUser], run for [userId]:
    it records the data, counts, and creates the job on the last reply. *)
Definition on_reply (j : Join) (userId : string) : Join * list Job :=
  let hash := <[userId := join_getUser j userId]> (identityHash j) in
  let n := S (count j) in
  ({| join_message := join_message j;
      join_recipients := join_recipients j;
      join_identities := join_identities j;
      join_getUser := join_getUser j;
      identityHash := hash;
      count := n |},
   if Nat.eqb n (length (join_identities j)) then
     [createJob (join_message j) (join_recipients j) hash]
   else []).

(** The callbacks run in the order the lookups complete. *)
Fixpoint run_replies (j : Join) (order : list string) : Join * list Job :=
  match order with
  | [] => (j, [])
  | userId :: rest =>
      let '(j1, jobs1) := on_reply j userId in
      let '(j2, jobs2) := run_replies j1 rest in
      (j2, jobs1 ++ jobs2)
  end.

End Service.

End Receipts.

(** ** receipts.js, the first revision (no identities) *)

Module ReceiptsFirst.

Record ReceiptsConfig := {
  delay : jsval;
  recipient_status_filter : list string
}.

Record HookInput := {
  in_name : string;
  in_path : string;
  in_events : list string;
  in_delay : jsval;
  in_receipts : ReceiptsConfig
}.

Record Hook := {
  name : string;
  originalName : string;
  path : string;
  events : list string;
  receipts : ReceiptsConfig
}.

Section Service.

Variable ms : jsval -> jsval.

Definition map_hook (hook : HookInput) : Hook :=
  {| name := in_name hook +:+ ":receipts";
     originalName := in_name hook;
     path := in_path hook;
     events := in_events hook;
     receipts :=
       {| delay := ms (in_delay hook);
          recipient_status_filter :=
            recipient_status_filter (in_receipts hook) |} |}.

Variable hook : Hook.

Definition snapshot_key (messageId : string) : string :=
  REDIS_PREFIX +:+ messageId.

Definition delayed_job (message : Message) : Job :=
  {| job_type := name hook +:+ " delayed-job";
     job_data := DelayedData "Process undelivered message" (id message);
     job_delay := Some (delay (receipts hook));
     job_attempts := 10;
     job_backoff := ("exponential", 1000%Z) |}.

Definition process_event (data : JobData) : Outcome :=
  match data_message data with
  | None =>
      {| out_ops := []; out_jobs := []; out_pending := None;
         out_done := 1; out_thrown := true |}
  | Some message =>
      if truthy (sender_name (sender message)) then
        {| out_ops := []; out_jobs := []; out_pending := None;
           out_done := 2; out_thrown := false |}
      else
        let type := default "undefined" (data_type data) in
        if String.eqb type "message.sent" then
          {| out_ops := [RedisSet (snapshot_key (id message))
                                  (JSON_stringify message) None];
             out_jobs := [delayed_job message];
             out_pending := None; out_done := 1; out_thrown := false |}
        else if String.eqb type "message.delivered"
                || String.eqb type "message.read" then
          {| out_ops := [RedisSet (snapshot_key (id message))
                                  (JSON_stringify message) None];
             out_jobs := []; out_pending := None;
             out_done := 1; out_thrown := false |}
        else if String.eqb type "message.deleted" then
          {| out_ops := [RedisDel (snapshot_key (id message))];
             out_jobs := []; out_pending := None;
             out_done := 1; out_thrown := false |}
        else
          {| out_ops := []; out_jobs := []; out_pending := None;
             out_done := 1; out_thrown := false |}
  end.

Definition watched (message : Message) (userId : string) : bool :=
  match JSObject.get (recipient_status message) userId with
  | Some status => includes (recipient_status_filter (receipts hook)) status
  | None => false
  end.

Definition filter_recipients (message : Message) : list string :=
  List.filter (watched message)
    (JSObject.Object_keys (recipient_status message)).

Definition processMessage (message : Message) : list Job :=
  let recipients := filter_recipients message in
  match recipients with
  | [] => []
  | _ :: _ =>
      [{| job_type := originalName hook;
          job_data := ReceiptData message recipients None;
          job_delay := None;
          job_attempts := 10;
          job_backoff := ("exponential", 1000%Z) |}]
  end.

Definition process_delayed_job (redis : gmap string JsonText)
    (data : JobData) : Outcome :=
  let messageId := data_messageId data in
  match redis !! snapshot_key messageId with
  | Some reply =>
      {| out_ops := [RedisGet (snapshot_key messageId);
                     RedisDel (snapshot_key messageId)];
         out_jobs := processMessage (JSON_parse reply);
         out_pending := None;
         out_done := 1; out_thrown := false |}
  | None =>
      {| out_ops := [RedisGet (snapshot_key messageId)];
         out_jobs := []; out_pending := None;
         out_done := 1; out_thrown := false |}
  end.

End Service.

End ReceiptsFirst.

(** ** register.js *)

(** [s.match(/suf$/)] for a literal [suf]: [s] ends with [suf]. *)
Fixpoint ends_with (suf s : string) : bool :=
  if String.eqb s suf then true
  else match s with
       | EmptyString => false
       | String _ s' => ends_with suf s'
       end.

(** [s.replace(/suf$/, '')] for a literal [suf]. *)
Fixpoint strip_suffix (suf s : string) : string :=
  if String.eqb s suf then ""
  else match s with
       | EmptyString => ""
       | String c s' => String c (strip_suffix suf s')
       end.

(** [s.replace(/^\//, '')]: one leading slash is removed. *)
Definition strip_leading_slash (s : string) : string :=
  match s with
  | String c s' => if String.eqb (String c "") "/" then s' else s
  | EmptyString => s
  end.

Module Register.

Record HookDef := {
  name : string;
  events : list string;
  path : string
}.

(** A webhook as the Layer server lists it. *)
Record Webhook := {
  id : string;
  status : string;
  config_name : string;
  target_url : string
}.

Record Options := {
  url : string;
  secret : string;
  hooks : list HookDef
}.

(** The calls made to the webhooks client after [list]. *)
Inductive Call :=
| Enable (id : string)
| RegisterCall (url : string) (events : list string) (secret : string)
               (config_name : string).

(** The base [url] after the two normalizing statements. *)
Definition base_url (options : Options) : string :=
  let url := strip_suffix ":443" (url options) in
  if ends_with "/" url then url else url +:+ "/".

(** [hook.path = hook.path.replace(/^\//, '')]: the hook object itself is
    changed, which a later [listen(options)] on the same object sees. *)
Definition strip_path (hook : HookDef) : HookDef :=
  {| name := name hook;
     events := events hook;
     path := strip_leading_slash (path hook) |}.

Section Registration.

Variable options : Options.
Variable currentHooks : list Webhook.

Definition matches (hookDef : HookDef) (webhook : Webhook) : bool :=
  String.eqb (config_name webhook) (name hookDef)
  && String.eqb (target_url webhook) (base_url options +:+ path hookDef).

Definition getWebhook (hookDef : HookDef) : option Webhook :=
  head (List.filter (matches hookDef) currentHooks).

Definition verifyWebhook (hookDef : HookDef) (webhook : Webhook)
  : list Call :=
  if negb (String.eqb (status webhook) "active")
  then [Enable (id webhook)]
  else [].

Definition registerWebhook (hookDef : HookDef) : list Call :=
  [RegisterCall (base_url options +:+ path hookDef) (events hookDef)
     (secret options) (name hookDef)].

Definition registerHook (hookDef : HookDef) : list Call :=
  match getWebhook hookDef with
  | Some webhook => verifyWebhook hookDef webhook
  | None => registerWebhook hookDef
  end.

End Registration.

(** The module function, given the reply of [webhooksClient.list]
    ([None] for an error): the hooks as it leaves them and the calls it
    makes. *)
Definition register (list_reply : option (list Webhook))
    (options : Options) : list HookDef * list Call :=
  let hooks := strip_path <$> hooks options in
  (hooks,
   match list_reply with
   | None => []
   | Some currentHooks =>
       concat (registerHook options currentHooks <$> hooks)
   end).

End Register.

(** ** The queue worker *)

(** The event jobs of a hook handled one after the other, each handler
    running to completion: the store they leave and the jobs they
    create. *)
Fixpoint process_events (hook : Receipts.Hook)
    (redis : gmap string JsonText) (jobs : list JobData)
  : gmap string JsonText * list Job :=
  match jobs with
  | [] => (redis, [])
  | data :: rest =>
      let o := Receipts.process_event hook data in
      let '(redis', created) :=
        process_events hook (redis_run redis (out_ops o)) rest in
      (redis', out_jobs o ++ created)
  end.

(** A user-sent [message.sent] event: the events that arm a check. *)
Definition arms_check (data : JobData) : bool :=
  match data with
  | EventData _ _ type _ (Some message) =>
      negb (truthy (sender_name (sender message)))
      && String.eqb type "message.sent"
  | _ => false
  end.

(** ** Predicates used in the statements *)

(** A Redis command on [key] that, when it is a [set], stores the JSON
    text of [m] without expiry. *)
Definition snapshot_op (key : string) (m : option Message) (op : RedisOp)
  : Prop :=
  op_key op = key
  /\ match op with
     | RedisSet _ value expiry =>
         Some value = JSON_stringify <$> m /\ expiry = None
     | _ => True
     end.

(** The recipient set in the words of the specification: the user ids of
    the stored recipient-status map whose status is one of the watched
    statuses, in stored order. *)
Definition watched_recipients (watchedStatuses : list string)
    (recipientStatus : list (string * string)) : list string :=
  (List.filter (fun entry => bool_decide (entry.2 ∈ watchedStatuses))
     recipientStatus).*1.

(** The JSON texts the event processor stores: the text of a message
    object whose [recipient_status] has no repeated key. *)
Definition stored_snapshot (reply : JsonText) : Prop :=
  exists m, JSObject.wf (recipient_status m) /\ reply = JSON_stringify m.

(** * Properties *)

(** ** Strings *)

Lemma starts_with_iff (p s : string) :
  starts_with p s = true <-> exists suffix, s = p +:+ suffix.
Proof.
  unfold starts_with. revert s.
  induction p as [|c p IH]; intros s; simpl.
  - split; [intros _; exists s; reflexivity | by destruct s].
  - destruct s as [|d s].
    + split; [discriminate | intros [x Hx]; discriminate].
    + simpl. destruct (Ascii.ascii_dec c d) as [->|Hne].
      * etransitivity; [apply IH|].
        split; intros [x Hx]; exists x.
        -- by rewrite Hx.
        -- by injection Hx.
      * split; [discriminate | intros [x Hx]; by injection Hx].
Qed.

Lemma append_assoc (a b c : string) : (a +:+ b) +:+ c = a +:+ (b +:+ c).
Proof.
  induction a as [|x a IH]; [done|].
  change (String x ((a +:+ b) +:+ c) = String x (a +:+ (b +:+ c))).
  by rewrite IH.
Qed.

(** ** The event router of listen.js *)

Lemma foreign_false_iff (hookDef : Listen.HookDef) (req : Listen.Request) :
  Listen.foreign hookDef req = false <->
  Listen.config_name (Listen.body req) = Listen.name hookDef
  \/ exists suffix,
       Listen.name hookDef
       = Listen.config_name (Listen.body req) +:+ ":" +:+ suffix.
Proof.
  unfold Listen.foreign, Listen.webhookName.
  rewrite andb_false_iff, !negb_false_iff, String.eqb_eq, starts_with_iff.
  split; intros [H|[x H]]; auto; right; exists x.
  - by rewrite H, append_assoc.
  - by rewrite H, append_assoc.
Qed.

Lemma post_handler_status (ms : jsval -> jsval) (hookDef : Listen.HookDef)
    (req : Listen.Request) :
  (Listen.post_handler ms hookDef req).1
  = if Listen.foreign hookDef req then 400 else 200.
Proof. unfold Listen.post_handler. by destruct (Listen.foreign hookDef req). Qed.

(** C2 (as amended). The POST handler accepts an event exactly when the
    identity embedded in the event, [req.body.config.name], equals the
    hook's name or the hook's name is a namespaced variant of it, that is
    [hook name = config.name + ":" + suffix] (the receipts service listens
    under [name + ":receipts"] for events registered under [name]). Any
    other identity is answered with status 400 and creates no job; an
    accepted event is answered with 200, and a job is created for it unless
    it is a bot echo. *)
Theorem router_accepts_namespaced_hook (ms : jsval -> jsval)
    (hookDef : Listen.HookDef) (req : Listen.Request) :
  let accepted :=
    Listen.config_name (Listen.body req) = Listen.name hookDef
    \/ exists suffix,
         Listen.name hookDef
         = Listen.config_name (Listen.body req) +:+ ":" +:+ suffix in
  ((Listen.post_handler ms hookDef req).1 = 200 <-> accepted)
  /\ (~ accepted -> Listen.post_handler ms hookDef req = (400, []))
  /\ ((Listen.post_handler ms hookDef req).2 <> []
      <-> accepted /\ Listen.not_a_bot req = true).
Proof.
  intros accepted. subst accepted. rewrite <- foreign_false_iff.
  unfold Listen.post_handler.
  destruct (Listen.foreign hookDef req); simpl.
  - repeat split; try done. by intros [? _].
  - repeat split; try done.
    + by destruct (Listen.not_a_bot req).
    + intros [_ ->]. done.
Qed.

(** C2, the claim as written fails: a hook named ["Message Read Monitor"]
    answers an event whose embedded identity is the namespaced variant
    ["Message Read Monitor:receipts"] of its own name with 400. *)
Lemma router_rejects_suffixed_identity :
  let hookDef :=
    {| Listen.name := "Message Read Monitor";
       Listen.path := "/message-read-monitor";
       Listen.delay := JUndefined |} in
  let req :=
    {| Listen.body :=
         {| Listen.event_type := "message.sent";
            Listen.event_created_at := "2016-01-01T00:00:00Z";
            Listen.config_name := "Message Read Monitor:receipts";
            Listen.conversation := None;
            Listen.message := None |};
       Listen.signature := None |} in
  ~ ((Listen.post_handler (fun v => v) hookDef req).1 = 200
     <-> Listen.config_name (Listen.body req) = Listen.name hookDef
         \/ exists suffix,
              Listen.config_name (Listen.body req)
              = Listen.name hookDef +:+ ":" +:+ suffix).
Proof.
  intros hookDef req [_ H].
  assert (Hs : (Listen.post_handler (fun v => v) hookDef req).1 = 400)
    by reflexivity.
  rewrite H in Hs; [discriminate|].
  right. by exists "receipts".
Qed.

(** The converse direction: the receipts listener, named
    ["Message Read Monitor:receipts"], accepts the events registered under
    the original name. *)
Example router_accepts_original_name :
  let hookDef :=
    {| Listen.name := "Message Read Monitor:receipts";
       Listen.path := "/message-read-monitor";
       Listen.delay := JUndefined |} in
  let req :=
    {| Listen.body :=
         {| Listen.event_type := "message.sent";
            Listen.event_created_at := "2016-01-01T00:00:00Z";
            Listen.config_name := "Message Read Monitor";
            Listen.conversation := None;
            Listen.message := None |};
       Listen.signature := None |} in
  (Listen.post_handler (fun v => v) hookDef req).1 = 200.
Proof. reflexivity. Qed.

Lemma length_append (a b : string) :
  String.length (a +:+ b) = String.length a + String.length b.
Proof.
  induction a as [|x a IH]; [done|].
  change (S (String.length (a +:+ b)) = S (String.length a + String.length b)).
  by rewrite IH.
Qed.

(** ** Bot echoes *)

(** C6. A message sent by the Platform API carries [sender.name] and no
    [sender.user_id]. The listener creates no job for it and, once the
    request passed the signature and hook-name checks, answers 200; the
    event processor of either revision of the receipts service sends no
    Redis command and creates no job for it. *)
Theorem bot_echo_suppressed
    (ms : jsval -> jsval) (stringify : Listen.Body -> string)
    (utf8safe : string -> string) (hmac_sha1_hex : string -> string -> string)
    (secret : string) (hookDef : Listen.HookDef) (req : Listen.Request)
    (hook : Receipts.Hook) (hook0 : ReceiptsFirst.Hook)
    (m : Message) (title timestamp type : string) (conv : option string)
    (redis : gmap string JsonText) :
  Listen.message (Listen.body req) = Some m ->
  truthy (user_id (sender m)) = false ->
  truthy (sender_name (sender m)) = true ->
  let post :=
    Listen.app_post ms stringify utf8safe hmac_sha1_hex secret hookDef req in
  let o := Receipts.process_event hook
             (EventData title timestamp type conv (Some m)) in
  let o0 := ReceiptsFirst.process_event hook0
              (EventData title timestamp type conv (Some m)) in
  post.2 = []
  /\ (Listen.handleValidation stringify utf8safe hmac_sha1_hex secret req
      = true ->
      Listen.foreign hookDef req = false -> post.1 = 200)
  /\ (out_ops o = [] /\ out_jobs o = [] /\ out_pending o = None
      /\ redis_run redis (out_ops o) = redis)
  /\ (out_ops o0 = [] /\ out_jobs o0 = [] /\ out_pending o0 = None
      /\ redis_run redis (out_ops o0) = redis).
Proof.
  intros Hm Hu Hn. simpl.
  unfold Listen.app_post, Listen.post_handler, Listen.not_a_bot.
  unfold Receipts.process_event, ReceiptsFirst.process_event. simpl.
  rewrite Hm, Hu, Hn. simpl.
  split; [|split]; [| |done].
  - destruct (Listen.handleValidation _ _ _ _ _); [|done].
    by destruct (Listen.foreign _ _).
  - by intros -> ->.
Qed.

Lemma bot_echo_suppressed_witness :
  let bot :=
    {| id := "m1";
       sender := {| user_id := None; sender_name := Some "bot-service" |};
       recipient_status := [("a", "sent")];
       parts := "hello" |} in
  let req :=
    {| Listen.body :=
         {| Listen.event_type := "message.sent";
            Listen.event_created_at := "2016-01-01T00:00:00Z";
            Listen.config_name := "Hook";
            Listen.conversation := None;
            Listen.message := Some bot |};
       Listen.signature := Some "secretmessage.sent" |} in
  let hookDef :=
    {| Listen.name := "Hook:receipts"; Listen.path := "/hook";
       Listen.delay := JUndefined |} in
  let hook :=
    {| Receipts.name := "Hook:receipts"; Receipts.originalName := "Hook";
       Receipts.path := "/hook"; Receipts.events := [];
       Receipts.receipts :=
         {| Receipts.delay := JNumber 600000;
            Receipts.reportForStatus := ["sent"];
            Receipts.identities := Receipts.IdentitiesOff |} |} in
  let post :=
    Listen.app_post (fun v => v) Listen.event_type (fun s => s)
      String.append "secret" hookDef req in
  post = (200, [])
  /\ out_ops (Receipts.process_event hook
                (EventData "Hook:receipts" "2016-01-01T00:00:00Z"
                   "message.sent" None (Some bot))) = [].
Proof.
  intros bot req hookDef hook post.
  pose proof (bot_echo_suppressed (fun v => v) Listen.event_type (fun s => s)
                String.append "secret" hookDef req hook
                {| ReceiptsFirst.name := "Hook:receipts";
                   ReceiptsFirst.originalName := "Hook";
                   ReceiptsFirst.path := "/hook"; ReceiptsFirst.events := [];
                   ReceiptsFirst.receipts :=
                     {| ReceiptsFirst.delay := JNumber 600000;
                        ReceiptsFirst.recipient_status_filter := ["sent"] |} |}
                bot "Hook:receipts" "2016-01-01T00:00:00Z" "message.sent"
                None ∅ eq_refl eq_refl eq_refl) as (H1 & H2 & (H3 & _) & _).
  split; [|exact H3].
  specialize (H2 eq_refl eq_refl).
  fold post in H1, H2. destruct post as [st jobs]. simpl in *. congruence.
Defined.

(** ** The event processor of the receipts service *)

Lemma redis_run_one (redis : gmap string JsonText) (op : RedisOp) :
  redis_run redis [op] = redis_apply redis op.
Proof. reflexivity. Qed.

(** C7. For a message sent by a user, the state of the key of
    (hook name, message id), ["layer-webhooks-" + hook.name + "-" +
    message.id], changes as follows: [message.sent] stores the snapshot
    and creates exactly one delayed check, the job of type [hook.name +
    " delayed-job"] that carries the message id and the hook's delay;
    [message.delivered] and [message.read] overwrite the snapshot and
    create no job; [message.deleted] removes the snapshot and creates no
    job. No other event type creates a job, and no other key changes. *)
Theorem only_sent_arms_a_check (hook : Receipts.Hook)
    (title timestamp type : string) (conv : option string) (m : Message)
    (redis : gmap string JsonText) :
  truthy (sender_name (sender m)) = false ->
  let o := Receipts.process_event hook
             (EventData title timestamp type conv (Some m)) in
  let key := "layer-webhooks-" +:+ Receipts.name hook +:+ "-" +:+ id m in
  let check :=
    {| job_type := Receipts.name hook +:+ " delayed-job";
       job_data := DelayedData "Process undelivered message" (id m);
       job_delay := Some (Receipts.delay (Receipts.receipts hook));
       job_attempts := 10;
       job_backoff := ("exponential", 1000%Z) |} in
  (type = "message.sent" ->
     out_jobs o = [check]
     /\ redis_run redis (out_ops o) = <[key := JSON_stringify m]> redis)
  /\ (type = "message.delivered" \/ type = "message.read" ->
     out_jobs o = []
     /\ redis_run redis (out_ops o) = <[key := JSON_stringify m]> redis)
  /\ (type = "message.deleted" ->
     out_jobs o = [] /\ redis_run redis (out_ops o) = delete key redis)
  /\ (out_jobs o <> [] -> type = "message.sent")
  /\ (forall k, k <> key -> redis_run redis (out_ops o) !! k = redis !! k).
Proof.
  intros Hn o key check.
  assert (Hkey : Receipts.snapshot_key hook (id m) = key).
  { unfold Receipts.snapshot_key, REDIS_PREFIX. subst key.
    by rewrite !append_assoc. }
  subst o. unfold Receipts.process_event. simpl. rewrite Hn, Hkey.
  split; [|split; [|split; [|split]]].
  - by intros ->.
  - by intros [-> | ->].
  - by intros ->.
  - destruct (String.eqb_spec type "message.sent") as [|_]; [done|].
    by repeat case_match.
  - intros k Hk. repeat case_match; simpl; try done.
    + by apply lookup_insert_ne.
    + by apply lookup_insert_ne.
    + by apply lookup_delete_ne.
Qed.

Lemma only_sent_arms_a_check_witness :
  let hook :=
    {| Receipts.name := "Hook:receipts"; Receipts.originalName := "Hook";
       Receipts.path := "/hook"; Receipts.events := [];
       Receipts.receipts :=
         {| Receipts.delay := JNumber 600000;
            Receipts.reportForStatus := ["sent"];
            Receipts.identities := Receipts.IdentitiesOff |} |} in
  let m :=
    {| id := "m1";
       sender := {| user_id := Some "alice"; sender_name := None |};
       recipient_status := [("bob", "sent")];
       parts := "hello" |} in
  let sent :=
    Receipts.process_event hook
      (EventData "Hook:receipts" "t0" "message.sent" None (Some m)) in
  let read :=
    Receipts.process_event hook
      (EventData "Hook:receipts" "t1" "message.read" None (Some m)) in
  (out_jobs sent
   = [{| job_type := "Hook:receipts delayed-job";
         job_data := DelayedData "Process undelivered message" "m1";
         job_delay := Some (JNumber 600000);
         job_attempts := 10;
         job_backoff := ("exponential", 1000%Z) |}]
   /\ redis_run ∅ (out_ops sent)
      = {[ "layer-webhooks-Hook:receipts-m1" := JSON_stringify m ]})
  /\ out_jobs read = [].
Proof.
  intros hook m sent read. split.
  - exact (proj1 (only_sent_arms_a_check hook "Hook:receipts" "t0"
                    "message.sent" None m ∅ eq_refl) eq_refl).
  - exact (proj1 (proj1 (proj2 (only_sent_arms_a_check hook "Hook:receipts"
                           "t1" "message.read" None m ∅ eq_refl))
                    (or_intror eq_refl))).
Defined.

(** C10 (as amended). The event processor calls [done], with no error, on
    every path. When the payload has no message object (an event without
    [message], or a delayed-check payload) handling throws: nothing is
    stored, no job is created, [done] is called once by the [finally]
    block, and, the [try]/[finally] having no [catch], the exception
    leaves the handler after [done]. When the payload has a message (an
    event with [message], or a notification payload, whose [type] matches
    no case) nothing is thrown, and [done] is called twice for a
    bot-sender message and once otherwise. The fire-time processor calls
    [done] exactly once and throws nothing. *)
Theorem done_is_always_called (client : string -> Receipts.Response)
    (hook : Receipts.Hook) (redis : gmap string JsonText) (data : JobData) :
  let o := Receipts.process_event hook data in
  1 <= out_done o
  /\ (forall title timestamp type conv,
        data = EventData title timestamp type conv None ->
        out_done o = 1 /\ out_thrown o = true
        /\ out_ops o = [] /\ out_jobs o = [])
  /\ (forall title messageId,
        data = DelayedData title messageId ->
        out_done o = 1 /\ out_thrown o = true
        /\ out_ops o = [] /\ out_jobs o = [])
  /\ (forall title timestamp type conv m,
        data = EventData title timestamp type conv (Some m) ->
        out_thrown o = false
        /\ out_done o = if truthy (sender_name (sender m)) then 2 else 1)
  /\ (forall m recipients identities,
        data = ReceiptData m recipients identities ->
        out_thrown o = false
        /\ out_done o = (if truthy (sender_name (sender m)) then 2 else 1)
        /\ out_ops o = [] /\ out_jobs o = [])
  /\ out_done (Receipts.process_delayed_job client hook redis data) = 1
  /\ out_thrown (Receipts.process_delayed_job client hook redis data) = false.
Proof.
  simpl. unfold Receipts.process_event, Receipts.process_delayed_job.
  split; [|split; [|split; [|split; [|split; [|split]]]]].
  - repeat case_match; simpl; lia.
  - by intros ? ? ? ? ->.
  - by intros ? ? ->.
  - intros ? ? ? ? m ->. simpl. by repeat case_match.
  - intros m ? ? ->. simpl. by destruct (truthy (sender_name (sender m))).
  - by repeat case_match.
  - by repeat case_match.
Qed.

(** A notification payload handed to the event processor is acknowledged
    and ignored. *)
Example notification_payload_is_ignored :
  let hook :=
    {| Receipts.name := "Hook:receipts"; Receipts.originalName := "Hook";
       Receipts.path := "/hook"; Receipts.events := [];
       Receipts.receipts :=
         {| Receipts.delay := JNumber 600000;
            Receipts.reportForStatus := ["sent"];
            Receipts.identities := Receipts.IdentitiesOff |} |} in
  let m :=
    {| id := "m1";
       sender := {| user_id := Some "alice"; sender_name := None |};
       recipient_status := [("bob", "sent")];
       parts := "hello" |} in
  Receipts.process_event hook (ReceiptData m ["bob"] (Some ∅))
  = {| out_ops := []; out_jobs := []; out_pending := None;
       out_done := 1; out_thrown := false |}.
Proof. reflexivity. Qed.

(** C10, the claim as written fails: for an event without a message
    object [done] is called, but the exception is not swallowed. *)
Lemma exception_leaves_the_processor :
  let hook :=
    {| Receipts.name := "Hook:receipts"; Receipts.originalName := "Hook";
       Receipts.path := "/hook"; Receipts.events := [];
       Receipts.receipts :=
         {| Receipts.delay := JNumber 600000;
            Receipts.reportForStatus := ["sent"];
            Receipts.identities := Receipts.IdentitiesOff |} |} in
  let o := Receipts.process_event hook
             (EventData "Hook:receipts" "t0" "conversation.created"
                (Some "conversation") None) in
  ~ (1 <= out_done o /\ out_thrown o = false).
Proof. intros hook o [_ H]. discriminate H. Qed.

(** ** The delay of the check *)

(** The delayed check carries the delay computed when the hooks are
    mapped, and that is [ms] of the hook's top-level [delay]. *)
Lemma armed_delay (ms : jsval -> jsval) (hook : Receipts.HookInput)
    (m : Message) :
  job_delay (Receipts.delayed_job (Receipts.map_hook ms hook) m)
  = Some (ms (Receipts.in_delay hook)).
Proof. reflexivity. Qed.

(** C3, the code at the documented configuration. The hook of the module's
    own usage example gives the delay as [receipts.delay]; the mapping
    reads [hook.delay], which that hook does not have, so the check is
    armed with [ms(undefined)] whatever [receipts.delay] says. *)
Theorem documented_receipts_delay_is_ignored (ms : jsval -> jsval)
    (m : Message) (d : jsval) :
  let hook :=
    {| Receipts.in_name := "Message Read Monitor";
       Receipts.in_path := "/message-read-monitor";
       Receipts.in_events := [];
       Receipts.in_delay := JUndefined;
       Receipts.in_receipts :=
         {| Receipts.delay := d;
            Receipts.reportForStatus := ["sent"];
            Receipts.identities := Receipts.IdentitiesOff |} |} in
  job_delay (Receipts.delayed_job (Receipts.map_hook ms hook) m)
  = Some (ms JUndefined).
Proof. reflexivity. Qed.

(** ** The keys of the store *)

(** C9 (as amended). In the revision with identities every Redis command
    of the event processor and of the fire-time evaluator uses the key
    ["layer-webhooks-" + hook.name + "-" + messageId], where [hook.name] is
    the mapped, [":receipts"]-suffixed name; in the first revision the key
    is ["layer-webhooks-" + messageId]. In both, a [set] stores the JSON
    text of the message and gives no expiry. *)
Theorem snapshot_keys (client : string -> Receipts.Response)
    (hook : Receipts.Hook) (hook0 : ReceiptsFirst.Hook)
    (redis : gmap string JsonText) (data : JobData) :
  Forall (snapshot_op
            ("layer-webhooks-" +:+ Receipts.name hook +:+ "-"
             +:+ default "" (id <$> data_message data))
            (data_message data))
    (out_ops (Receipts.process_event hook data))
  /\ Forall (snapshot_op
            ("layer-webhooks-" +:+ Receipts.name hook +:+ "-"
             +:+ data_messageId data) None)
    (out_ops (Receipts.process_delayed_job client hook redis data))
  /\ Forall (snapshot_op
            ("layer-webhooks-" +:+ default "" (id <$> data_message data))
            (data_message data))
    (out_ops (ReceiptsFirst.process_event hook0 data))
  /\ Forall (snapshot_op ("layer-webhooks-" +:+ data_messageId data) None)
    (out_ops (ReceiptsFirst.process_delayed_job hook0 redis data)).
Proof.
  unfold Receipts.process_event, Receipts.process_delayed_job,
    ReceiptsFirst.process_event, ReceiptsFirst.process_delayed_job,
    Receipts.snapshot_key, ReceiptsFirst.snapshot_key, REDIS_PREFIX.
  split; [|split; [|split]]; repeat case_match; simpl;
    rewrite ?Forall_cons, ?Forall_nil; unfold snapshot_op; simpl;
    rewrite ?append_assoc; done.
Qed.

(** C9, the claim as written fails on the first revision: the snapshot of
    message ["m1"] is stored under ["layer-webhooks-m1"], which has no hook
    name in it. *)
Lemma first_revision_key_has_no_hook_name :
  let hook0 :=
    {| ReceiptsFirst.name := "Hook:receipts";
       ReceiptsFirst.originalName := "Hook";
       ReceiptsFirst.path := "/hook"; ReceiptsFirst.events := [];
       ReceiptsFirst.receipts :=
         {| ReceiptsFirst.delay := JNumber 600000;
            ReceiptsFirst.recipient_status_filter := ["sent"] |} |} in
  let m :=
    {| id := "m1";
       sender := {| user_id := Some "alice"; sender_name := None |};
       recipient_status := [("bob", "sent")];
       parts := "hello" |} in
  ~ Forall (fun op => exists hookName,
              op_key op = "layer-webhooks-" +:+ hookName +:+ "-" +:+ id m)
      (out_ops (ReceiptsFirst.process_event hook0
                  (EventData "Hook:receipts" "t0" "message.sent" None
                     (Some m)))).
Proof.
  intros hook0 m H. apply Forall_cons_1 in H as [[hookName H] _].
  apply (f_equal String.length) in H.
  rewrite !length_append in H. simpl in H. lia.
Qed.

(** ** The fan-out of identity lookups *)

Section FanIn.

Variable hook : Receipts.Hook.

Lemma run_replies_app (j : Join) (l1 l2 : list string) :
  Receipts.run_replies hook j (l1 ++ l2)
  = let '(j1, jobs1) := Receipts.run_replies hook j l1 in
    let '(j2, jobs2) := Receipts.run_replies hook j1 l2 in
    (j2, jobs1 ++ jobs2).
Proof.
  revert j. induction l1 as [|u l1 IH]; intros j; simpl.
  - by destruct (Receipts.run_replies hook j l2).
  - rewrite IH.
    destruct (Receipts.run_replies hook _ l1) as [j1 jobs1].
    destruct (Receipts.run_replies hook j1 l2) as [j2 jobs2].
    by rewrite app_assoc.
Qed.

(** The closure variables after the replies in [order]: only the hash and
    the counter change. *)
Lemma run_replies_state (order : list string) (j : Join) :
  let j' := (Receipts.run_replies hook j order).1 in
  join_message j' = join_message j
  /\ join_recipients j' = join_recipients j
  /\ join_identities j' = join_identities j
  /\ join_getUser j' = join_getUser j
  /\ count j' = count j + length order
  /\ identityHash j'
     = foldl (fun h u => <[u := join_getUser j u]> h) (identityHash j) order.
Proof.
  revert j. induction order as [|u order IH]; intros j; simpl.
  - repeat split; lia.
  - specialize (IH (Receipts.on_reply hook j u).1).
    unfold Receipts.on_reply in *. cbn zeta in IH. simpl in IH.
    destruct (Receipts.run_replies hook _ order) as [j2 jobs2].
    simpl in *. destruct IH as (-> & -> & -> & -> & -> & ->).
    repeat split; lia.
Qed.

Lemma run_replies_cons (j : Join) (u : string) (rest : list string) :
  (Receipts.run_replies hook j (u :: rest)).2
  = (Receipts.on_reply hook j u).2
    ++ (Receipts.run_replies hook (Receipts.on_reply hook j u).1 rest).2.
Proof.
  simpl. unfold Receipts.on_reply.
  by destruct (Receipts.run_replies hook _ rest).
Qed.

Lemma on_reply_jobs (j : Join) (u : string) :
  (Receipts.on_reply hook j u).2
  = if Nat.eqb (S (count j)) (length (join_identities j))
    then [Receipts.createJob hook (join_message j) (join_recipients j)
            (<[u := join_getUser j u]> (identityHash j))]
    else [].
Proof. reflexivity. Qed.

(** No job while a reply is missing. *)
Lemma run_replies_waiting (order : list string) (j : Join) :
  count j + length order < length (join_identities j) ->
  (Receipts.run_replies hook j order).2 = [].
Proof.
  revert j. induction order as [|u order IH]; intros j Hlt; [done|].
  rewrite run_replies_cons, on_reply_jobs, IH.
  - destruct (Nat.eqb_spec (S (count j)) (length (join_identities j)));
      [simpl in Hlt; lia | done].
  - simpl in *. lia.
Qed.

(** Exactly one job with the last reply. *)
Lemma run_replies_complete (order : list string) (j : Join) :
  order <> [] ->
  count j + length order = length (join_identities j) ->
  (Receipts.run_replies hook j order).2
  = [Receipts.createJob hook (join_message j) (join_recipients j)
       (foldl (fun h u => <[u := join_getUser j u]> h) (identityHash j)
          order)].
Proof.
  revert j. induction order as [|u order IH]; intros j Hne Hlen; [done|].
  rewrite run_replies_cons, on_reply_jobs.
  destruct order as [|v order].
  - simpl in Hlen.
    destruct (Nat.eqb_spec (S (count j)) (length (join_identities j)));
      [done | lia].
  - rewrite IH; [|done|simpl in *; lia].
    destruct (Nat.eqb_spec (S (count j)) (length (join_identities j)));
      [simpl in *; lia | done].
Qed.

End FanIn.

Lemma fold_insert_lookup {V : Type} (g : string -> V) (order : list string)
    (h : gmap string V) (k : string) :
  foldl (fun h u => <[u := g u]> h) h order !! k
  = if decide (k ∈ order) then Some (g k) else h !! k.
Proof.
  revert h. induction order as [|u order IH]; intros h.
  - destruct (decide (k ∈ [])) as [Hin|_]; [|done].
    by apply elem_of_nil in Hin.
  - change (foldl (fun h u => <[u := g u]> h) (<[u := g u]> h) order !! k
            = if decide (k ∈ u :: order) then Some (g k) else h !! k).
    rewrite IH.
    destruct (decide (k ∈ order)) as [Hin|Hin],
             (decide (k ∈ u :: order)) as [Hin'|Hin']; try done.
    + exfalso. apply Hin'. by right.
    + apply elem_of_cons in Hin' as [->|?]; [|done].
      by rewrite lookup_insert_eq.
    + apply lookup_insert_ne. intros ->. apply Hin'. by left.
Qed.

(** A fresh fan-out whose lookups complete in any order: one job, with
    the last reply, carrying the data of every id. *)
Lemma fan_in (hook : Receipts.Hook) (j : Join) (order : list string) :
  count j = 0 -> identityHash j = ∅ ->
  join_identities j <> [] ->
  order ≡ₚ join_identities j ->
  exists hash,
    (Receipts.run_replies hook j order).2
    = [Receipts.createJob hook (join_message j) (join_recipients j) hash]
    /\ (forall u, u ∈ join_identities j ->
                  hash !! u = Some (join_getUser j u))
    /\ (forall u, u ∉ join_identities j -> hash !! u = None)
    /\ (forall replied rest, order = replied ++ rest -> rest <> [] ->
          (Receipts.run_replies hook j replied).2 = []).
Proof.
  intros Hc Hh Hne Hperm.
  exists (foldl (fun h u => <[u := join_getUser j u]> h) ∅ order).
  pose proof (Permutation_length Hperm) as Hlen.
  split; [|split; [|split]].
  - rewrite <- Hh. apply run_replies_complete; [|lia].
    intros ->. apply Permutation_nil_l in Hperm. by apply Hne.
  - intros u Hu. rewrite fold_insert_lookup.
    rewrite decide_True; [done|]. by rewrite Hperm.
  - intros u Hu. rewrite fold_insert_lookup.
    rewrite decide_False; [done|]. by rewrite Hperm.
  - intros replied rest -> Hrest. apply run_replies_waiting.
    rewrite length_app in Hlen. destruct rest; [done|]. simpl in Hlen. lia.
Qed.


(** ** Objects and their JSON members *)

Section JSObjectFacts.

Import JSObject.

Lemma get_None (o : t) (k : string) : k ∉ o.*1 -> get o k = None.
Proof.
  induction o as [|[k' v] o IH]; intros Hk; simpl; [done|].
  destruct (String.eqb_spec k k') as [->|Hne].
  - exfalso. apply Hk. by left.
  - apply IH. intros Hin. apply Hk. by right.
Qed.

Lemma get_is_Some (o : t) (k : string) : k ∈ o.*1 -> is_Some (get o k).
Proof.
  induction o as [|[k' v] o IH]; intros Hk; simpl.
  - by apply elem_of_nil in Hk.
  - destruct (String.eqb_spec k k') as [->|Hne]; [by eexists|].
    apply IH. apply elem_of_cons in Hk as [?|?]; done.
Qed.

Lemma get_elem_of (o : t) (k v : string) : get o k = Some v -> (k, v) ∈ o.
Proof.
  induction o as [|[k' v'] o IH]; simpl; [done|].
  destruct (String.eqb_spec k k') as [->|Hne].
  - intros [= ->]. by left.
  - intros H. right. by apply IH.
Qed.

Lemma get_NoDup (o : t) (k v : string) :
  NoDup (o.*1) -> (k, v) ∈ o -> get o k = Some v.
Proof.
  induction o as [|[k' v'] o IH]; intros Hnd Hin; simpl.
  - by apply elem_of_nil in Hin.
  - apply NoDup_cons in Hnd as [Hk' Hnd].
    apply elem_of_cons in Hin as [[= -> ->]|Hin].
    + by rewrite String.eqb_refl.
    + destruct (String.eqb_spec k k') as [->|Hne]; [|by apply IH].
      exfalso. apply Hk'. apply list_elem_of_fmap. by exists (k', v).
Qed.

Lemma set_fresh (o : t) (k v : string) :
  k ∉ o.*1 -> set o k v = o ++ [(k, v)].
Proof.
  induction o as [|[k' v'] o IH]; intros Hk; simpl; [done|].
  destruct (String.eqb_spec k k') as [->|Hne].
  - exfalso. apply Hk. by left.
  - rewrite IH; [done|]. intros Hin. apply Hk. by right.
Qed.

Lemma foldl_set_NoDup (ms acc : t) :
  NoDup ((acc ++ ms).*1) ->
  foldl (fun o kv => set o kv.1 kv.2) acc ms = acc ++ ms.
Proof.
  revert acc. induction ms as [|[k v] ms IH]; intros acc Hnd; simpl.
  - by rewrite app_nil_r.
  - rewrite set_fresh.
    + rewrite IH; rewrite <- app_assoc; done.
    + rewrite fmap_app in Hnd. apply NoDup_app in Hnd as (_ & Hd & _).
      intros Hin. apply (Hd k Hin). by left.
Qed.

(** Parsing members with distinct keys rebuilds them in the written
    order. *)
Lemma of_members_NoDup (ms : list (string * string)) :
  NoDup (ms.*1) -> of_members ms = ms.
Proof. intros H. by apply (foldl_set_NoDup ms []). Qed.

Lemma insert_index_perm (k : string) (l : list string) :
  insert_index k l ≡ₚ k :: l.
Proof.
  induction l as [|h l IH]; simpl; [done|].
  destruct (index_of k <=? index_of h)%N; [done|].
  rewrite IH. apply perm_swap.
Qed.

Lemma sort_index_perm (l : list string) : sort_index l ≡ₚ l.
Proof.
  induction l as [|k l IH]; simpl; [done|].
  by rewrite insert_index_perm, IH.
Qed.

Lemma insert_index_sorted (k : string) (l : list string) :
  Sorted index_le l -> Sorted index_le (insert_index k l).
Proof.
  induction 1 as [|h l Hs IH Hhd]; simpl.
  - by repeat constructor.
  - destruct (N.leb_spec (index_of k) (index_of h)) as [Hle|Hgt].
    + by repeat constructor.
    + constructor; [done|].
      destruct Hhd as [|h' l Hh']; simpl.
      * constructor. unfold index_le. lia.
      * destruct (index_of k <=? index_of h')%N; constructor;
          unfold index_le in *; lia.
Qed.

Lemma sort_index_sorted (l : list string) : Sorted index_le (sort_index l).
Proof.
  induction l as [|k l IH]; simpl; [constructor|].
  by apply insert_index_sorted.
Qed.

Lemma sort_index_of_sorted (l : list string) :
  Sorted index_le l -> sort_index l = l.
Proof.
  induction 1 as [|h l Hs IH Hhd]; simpl; [done|].
  rewrite IH. destruct Hhd as [|h' l Hh']; simpl; [done|].
  unfold index_le in Hh'. by apply N.leb_le in Hh' as ->.
Qed.

End JSObjectFacts.

Section ObjectKeys.

Import JSObject.

Lemma own_keys_perm (ks : list string) : own_keys ks ≡ₚ ks.
Proof.
  unfold own_keys. rewrite sort_index_perm.
  induction ks as [|k ks IH]; [done|].
  rewrite !filter_cons.
  destruct (is_index k) eqn:E.
  - rewrite decide_True, decide_False by done. simpl. by rewrite IH.
  - rewrite decide_False, decide_True by done.
    rewrite <- Permutation_middle. by rewrite IH.
Qed.

Lemma elem_of_Object_keys (o : t) (k : string) :
  k ∈ Object_keys o <-> k ∈ o.*1.
Proof. unfold Object_keys. by rewrite own_keys_perm. Qed.

Lemma Object_keys_NoDup (o : t) : wf o -> NoDup (Object_keys o).
Proof. unfold wf, Object_keys. by rewrite own_keys_perm. Qed.

Lemma filter_all {A : Type} (P : A -> Prop) `{!forall x, Decision (P x)}
    (l : list A) :
  Forall P l -> filter P l = l.
Proof.
  induction 1 as [|x l Hx Hl IH]; [done|].
  by rewrite filter_cons, decide_True, IH.
Qed.

Lemma filter_none {A : Type} (P : A -> Prop) `{!forall x, Decision (P x)}
    (l : list A) :
  Forall (fun x => ~ P x) l -> filter P l = [].
Proof.
  induction 1 as [|x l Hx Hl IH]; [done|].
  by rewrite filter_cons, decide_False, IH.
Qed.

(** Enumerating keys that are already in enumeration order changes
    nothing. *)
Lemma own_keys_idempotent (ks : list string) :
  own_keys (own_keys ks) = own_keys ks.
Proof.
  unfold own_keys at 1.
  set (A := sort_index (filter (fun k => is_index k = true) ks)).
  set (B := filter (fun k => is_index k = false) ks).
  assert (HA : Forall (fun k => is_index k = true) A).
  { unfold A. rewrite sort_index_perm. apply Forall_forall.
    intros k Hk. by apply list_elem_of_filter in Hk as [? _]. }
  assert (HB : Forall (fun k => is_index k = false) B).
  { apply Forall_forall. intros k Hk.
    by apply list_elem_of_filter in Hk as [? _]. }
  unfold own_keys. fold A B. rewrite !filter_app.
  rewrite (filter_all _ A HA), (filter_all _ B HB).
  rewrite (filter_none _ B), (filter_none _ A).
  - rewrite app_nil_r. simpl. f_equal.
    apply sort_index_of_sorted, sort_index_sorted.
  - eapply Forall_impl; [exact HA|]. simpl. intros k ->. done.
  - eapply Forall_impl; [exact HB|]. simpl. intros k ->. done.
Qed.

Lemma members_keys_aux (o : t) (l : list string) :
  (forall k, k ∈ l -> k ∈ o.*1) ->
  (omap (fun k => (fun v => (k, v)) <$> get o k) l).*1 = l.
Proof.
  induction l as [|k l IH]; intros Hl; simpl; [done|].
  destruct (get_is_Some o k) as [v Hv]; [apply Hl; by left|].
  rewrite Hv. simpl. f_equal. apply IH. intros k' Hk'. apply Hl. by right.
Qed.

(** [JSON.stringify] writes one member per own key, in enumeration
    order. *)
Lemma members_keys (o : t) : (members o).*1 = Object_keys o.
Proof.
  apply members_keys_aux. intros k. apply elem_of_Object_keys.
Qed.

Lemma elem_of_members (o : t) (k v : string) :
  (k, v) ∈ members o <-> get o k = Some v.
Proof.
  unfold members. rewrite list_elem_of_omap. split.
  - intros (k' & _ & Hk'). destruct (get o k') eqn:E; [|done].
    simpl in Hk'. by injection Hk' as -> ->.
  - intros Hv. exists k. split.
    + apply elem_of_Object_keys. apply get_elem_of in Hv.
      apply list_elem_of_fmap. by exists (k, v).
    + by rewrite Hv.
Qed.

(** What [JSON.parse] rebuilds from the text of an object. *)
Lemma of_members_members (o : t) : wf o -> of_members (members o) = members o.
Proof.
  intros Hwf. apply of_members_NoDup.
  rewrite members_keys. by apply Object_keys_NoDup.
Qed.

Lemma Object_keys_members (o : t) :
  Object_keys (members o) = (members o).*1.
Proof.
  unfold Object_keys at 1. rewrite members_keys.
  apply own_keys_idempotent.
Qed.

Lemma get_members (o : t) (k : string) : wf o -> get (members o) k = get o k.
Proof.
  intros Hwf. destruct (get o k) as [v|] eqn:E.
  - apply get_NoDup.
    + rewrite members_keys. by apply Object_keys_NoDup.
    + by apply elem_of_members.
  - destruct (get (members o) k) as [v|] eqn:E'; [|done].
    apply get_elem_of, elem_of_members in E'. congruence.
Qed.

End ObjectKeys.

(** ** The recipient evaluator *)

Lemma includes_spec (a : list string) (x : string) :
  includes a x = bool_decide (x ∈ a).
Proof.
  unfold includes. induction a as [|y a IH]; simpl.
  - done.
  - rewrite IH. destruct (String.eqb_spec x y) as [->|Hne]; simpl.
    + symmetry. apply bool_decide_eq_true_2. by left.
    + apply bool_decide_ext. rewrite elem_of_cons.
      split; [by right | by intros [?|?]].
Qed.

Lemma filter_fst {A B : Type} (f : A -> bool) (l : list (A * B)) :
  List.filter f (l.*1) = (List.filter (fun x => f x.1) l).*1.
Proof.
  induction l as [|[a b] l IH]; [done|].
  change (List.filter f (a :: l.*1)
          = (List.filter (fun x => f x.1) ((a, b) :: l)).*1).
  simpl List.filter. destruct (f a); [|done].
  change (a :: List.filter f (l.*1)
          = a :: (List.filter (fun x => f x.1) l).*1).
  by rewrite IH.
Qed.

(** The filter of [processMessage] over an object whose properties are in
    enumeration order. *)
Lemma filter_keys_in_order (statuses : list string) (o : JSObject.t) :
  JSObject.wf o ->
  JSObject.Object_keys o = o.*1 ->
  List.filter
    (fun userId =>
       match JSObject.get o userId with
       | Some status => includes statuses status
       | None => false
       end)
    (JSObject.Object_keys o)
  = watched_recipients statuses o.
Proof.
  intros Hwf ->. unfold watched_recipients. rewrite filter_fst. f_equal.
  apply filter_ext_in. intros [k v] Hin. simpl.
  rewrite (get_NoDup o k v Hwf) by by apply list_elem_of_In.
  apply includes_spec.
Qed.

Lemma watched_recipients_NoDup (statuses : list string)
    (o : list (string * string)) :
  NoDup (o.*1) -> NoDup (watched_recipients statuses o).
Proof.
  unfold watched_recipients. induction o as [|[k v] o IH]; simpl.
  - constructor.
  - intros [Hk Hnd]%NoDup_cons. destruct (bool_decide _); simpl; [|by auto].
    apply NoDup_cons. split; [|by auto].
    intros Hin. apply Hk. apply list_elem_of_fmap in Hin as ([k' v'] & -> & Hin).
    apply list_elem_of_In, filter_In in Hin as [Hin _].
    apply list_elem_of_fmap. exists (k', v'). split; [done|].
    by apply list_elem_of_In.
Qed.

Lemma elem_of_watched_recipients (statuses : list string)
    (o : list (string * string)) (u : string) :
  u ∈ watched_recipients statuses o
  <-> exists status, (u, status) ∈ o /\ status ∈ statuses.
Proof.
  unfold watched_recipients. rewrite list_elem_of_fmap. split.
  - intros ([k v] & -> & Hin).
    apply list_elem_of_In, filter_In in Hin as [Hin Hv].
    exists v. split; [by apply list_elem_of_In|].
    by apply bool_decide_eq_true_1 in Hv.
  - intros (v & Hin & Hv). exists (u, v). split; [done|].
    apply list_elem_of_In, filter_In. split; [by apply list_elem_of_In|].
    by apply bool_decide_eq_true_2.
Qed.

(** The object parsed from a stored snapshot has its properties in the
    order of the stored text. *)
Lemma parsed_snapshot (reply : JsonText) :
  stored_snapshot reply ->
  recipient_status (JSON_parse reply) = json_recipient_status reply
  /\ JSObject.wf (json_recipient_status reply)
  /\ JSObject.Object_keys (json_recipient_status reply)
     = (json_recipient_status reply).*1.
Proof.
  intros (m & Hwf & ->). simpl.
  split; [by apply of_members_members|].
  split; [|apply Object_keys_members].
  unfold JSObject.wf. rewrite members_keys. by apply Object_keys_NoDup.
Qed.

Lemma filter_recipients_snapshot (hook : Receipts.Hook) (reply : JsonText) :
  stored_snapshot reply ->
  Receipts.filter_recipients hook (JSON_parse reply)
  = watched_recipients (Receipts.reportForStatus (Receipts.receipts hook))
      (json_recipient_status reply).
Proof.
  intros Hs. destruct (parsed_snapshot reply Hs) as (Hp & Hwf & Hk).
  unfold Receipts.filter_recipients, Receipts.watched. rewrite Hp.
  by apply filter_keys_in_order.
Qed.

Lemma filter_recipients_snapshot_first (hook0 : ReceiptsFirst.Hook)
    (reply : JsonText) :
  stored_snapshot reply ->
  ReceiptsFirst.filter_recipients hook0 (JSON_parse reply)
  = watched_recipients
      (ReceiptsFirst.recipient_status_filter (ReceiptsFirst.receipts hook0))
      (json_recipient_status reply).
Proof.
  intros Hs. destruct (parsed_snapshot reply Hs) as (Hp & Hwf & Hk).
  unfold ReceiptsFirst.filter_recipients, ReceiptsFirst.watched. rewrite Hp.
  by apply filter_keys_in_order.
Qed.

(** C4. At fire time, for a snapshot the event processor stored, the
    recipients the evaluator computes are the user ids of the stored
    recipient-status map whose status is in the configured filter, in the
    order of the stored map and without duplicates. When there is none, no
    notification is created and no lookup started. When there are some,
    that list is what the evaluator emits: with identities off, the one
    job created carries it as [recipients]; with identities on, the
    lookups are started for the sender followed by that list, and the one
    job their last reply creates carries it; in the first revision the one
    job created carries it. *)
Theorem evaluator_filters_in_stored_order
    (client : string -> Receipts.Response) (hook : Receipts.Hook)
    (hook0 : ReceiptsFirst.Hook) (redis : gmap string JsonText)
    (data : JobData) (reply : JsonText) :
  stored_snapshot reply ->
  let statuses := Receipts.reportForStatus (Receipts.receipts hook) in
  let recipients :=
    watched_recipients statuses (json_recipient_status reply) in
  let statuses0 :=
    ReceiptsFirst.recipient_status_filter (ReceiptsFirst.receipts hook0) in
  let recipients0 :=
    watched_recipients statuses0 (json_recipient_status reply) in
  let fired := Receipts.process_delayed_job client hook redis data in
  let notification identities :=
    {| job_type := Receipts.originalName hook;
       job_data := ReceiptData (JSON_parse reply) recipients identities;
       job_delay := None;
       job_attempts := 10;
       job_backoff := ("exponential", 1000%Z) |} in
  Receipts.filter_recipients hook (JSON_parse reply) = recipients
  /\ NoDup recipients
  /\ (forall u, u ∈ recipients
        <-> exists status,
              (u, status) ∈ json_recipient_status reply
              /\ status ∈ statuses)
  /\ (redis !! Receipts.snapshot_key hook (data_messageId data) = Some reply ->
      recipients = [] ->
      out_jobs (Receipts.process_delayed_job client hook redis data) = []
      /\ out_pending (Receipts.process_delayed_job client hook redis data)
         = None)
  /\ ReceiptsFirst.filter_recipients hook0 (JSON_parse reply) = recipients0
  /\ (redis !! ReceiptsFirst.snapshot_key (data_messageId data) = Some reply ->
      recipients0 = [] ->
      out_jobs (ReceiptsFirst.process_delayed_job hook0 redis data) = [])
  /\ (redis !! Receipts.snapshot_key hook (data_messageId data) = Some reply ->
      recipients <> [] ->
      Receipts.identities (Receipts.receipts hook) = Receipts.IdentitiesOff ->
      out_jobs fired = [notification (Some ∅)] /\ out_pending fired = None)
  /\ (redis !! Receipts.snapshot_key hook (data_messageId data) = Some reply ->
      recipients <> [] ->
      Receipts.identities (Receipts.receipts hook) <> Receipts.IdentitiesOff ->
      out_jobs fired = []
      /\ exists j,
           out_pending fired = Some j
           /\ join_identities j
              = default "undefined" (user_id (sender (JSON_parse reply)))
                :: recipients
           /\ forall order, order ≡ₚ join_identities j ->
                exists hash,
                  (Receipts.run_replies hook j order).2
                  = [notification (Some hash)])
  /\ (redis !! ReceiptsFirst.snapshot_key (data_messageId data) = Some reply ->
      recipients0 <> [] ->
      out_jobs (ReceiptsFirst.process_delayed_job hook0 redis data)
      = [{| job_type := ReceiptsFirst.originalName hook0;
            job_data := ReceiptData (JSON_parse reply) recipients0 None;
            job_delay := None;
            job_attempts := 10;
            job_backoff := ("exponential", 1000%Z) |}]).
Proof.
  intros Hs statuses recipients statuses0 recipients0 fired notification.
  pose proof (filter_recipients_snapshot hook reply Hs) as Hf.
  pose proof (filter_recipients_snapshot_first hook0 reply Hs) as Hf0.
  fold statuses recipients in Hf. fold statuses0 recipients0 in Hf0.
  destruct (parsed_snapshot reply Hs) as (_ & Hwf & _).
  split; [done|]. split; [by apply watched_recipients_NoDup|].
  split; [apply elem_of_watched_recipients|].
  assert (Hfired : redis !! Receipts.snapshot_key hook (data_messageId data)
                   = Some reply ->
                   (out_jobs fired, out_pending fired)
                   = Receipts.processMessage client hook (JSON_parse reply)).
  { intros Hr. subst fired. unfold Receipts.process_delayed_job. rewrite Hr.
    by destruct (Receipts.processMessage client hook (JSON_parse reply)). }
  unfold Receipts.processMessage in Hfired. rewrite Hf in Hfired.
  assert (Hfired0 : redis !! ReceiptsFirst.snapshot_key (data_messageId data)
                    = Some reply ->
                    out_jobs (ReceiptsFirst.process_delayed_job hook0 redis
                                data)
                    = ReceiptsFirst.processMessage hook0 (JSON_parse reply)).
  { intros Hr. unfold ReceiptsFirst.process_delayed_job. by rewrite Hr. }
  unfold ReceiptsFirst.processMessage in Hfired0. rewrite Hf0 in Hfired0.
  fold fired. clearbody fired recipients recipients0.
  split; [|split; [done|]; split; [|split; [|split]]].
  - intros Hr He. specialize (Hfired Hr). rewrite He in Hfired.
    by injection Hfired as -> ->.
  - intros Hr He. rewrite (Hfired0 Hr), He. done.
  - intros Hr Hne Hoff. specialize (Hfired Hr). rewrite Hoff in Hfired.
    destruct recipients; [done|]. by injection Hfired as -> ->.
  - intros Hr Hne Hon. specialize (Hfired Hr).
    set (ids := default "undefined" (user_id (sender (JSON_parse reply)))
                :: recipients) in *.
    assert (exists getUser,
              out_jobs fired = []
              /\ out_pending fired
                 = Some {| join_message := JSON_parse reply;
                           join_recipients := recipients;
                           join_identities := ids;
                           join_getUser := getUser;
                           identityHash := ∅; count := 0 |})
      as (getUser & Hj & Hp).
    { destruct recipients; [done|].
      destruct (Receipts.identities (Receipts.receipts hook));
        [done| |]; injection Hfired as -> ->; by eexists. }
    split; [done|]. eexists. split; [exact Hp|]. split; [done|].
    intros order Hperm.
    match type of Hperm with _ ≡ₚ join_identities ?j0 =>
      destruct (fan_in hook j0 order) as (hash & H1 & _);
        [done | done | done | exact Hperm |]
    end.
    exists hash. exact H1.
  - intros Hr Hne. rewrite (Hfired0 Hr). by destruct recipients0.
Qed.

(** The filter example of the specification, with an array-index user id
    added: stored order, [C] excluded, and the job the evaluation
    creates. *)
Lemma evaluator_filters_in_stored_order_witness :
  let hook :=
    {| Receipts.name := "Hook:receipts"; Receipts.originalName := "Hook";
       Receipts.path := "/hook"; Receipts.events := [];
       Receipts.receipts :=
         {| Receipts.delay := JNumber 600000;
            Receipts.reportForStatus := ["sent"; "delivered"];
            Receipts.identities := Receipts.IdentitiesOff |} |} in
  let m :=
    {| id := "m1";
       sender := {| user_id := Some "alice"; sender_name := None |};
       recipient_status :=
         [("A", "sent"); ("B", "delivered"); ("C", "read"); ("42", "sent")];
       parts := "hello" |} in
  let redis : gmap string JsonText :=
    {[ "layer-webhooks-Hook:receipts-m1" := JSON_stringify m ]} in
  stored_snapshot (JSON_stringify m)
  /\ json_recipient_status (JSON_stringify m)
     = [("42", "sent"); ("A", "sent"); ("B", "delivered"); ("C", "read")]
  /\ Receipts.filter_recipients hook (JSON_parse (JSON_stringify m))
     = ["42"; "A"; "B"]
  /\ out_jobs
       (Receipts.process_delayed_job
          (fun _ => Receipts.ResponseError "unused") hook redis
          (DelayedData "Process undelivered message" "m1"))
     = [{| job_type := "Hook";
           job_data :=
             ReceiptData (JSON_parse (JSON_stringify m)) ["42"; "A"; "B"]
               (Some ∅);
           job_delay := None;
           job_attempts := 10;
           job_backoff := ("exponential", 1000%Z) |}].
Proof.
  intros hook m redis.
  assert (Hs : stored_snapshot (JSON_stringify m)).
  { exists m. split; [|done]. unfold JSObject.wf.
    apply (bool_decide_unpack _). by vm_compute. }
  split; [exact Hs|]. split; [reflexivity|].
  destruct (evaluator_filters_in_stored_order
              (fun _ => Receipts.ResponseError "unused") hook
              {| ReceiptsFirst.name := "Hook:receipts";
                 ReceiptsFirst.originalName := "Hook";
                 ReceiptsFirst.path := "/hook";
                 ReceiptsFirst.events := [];
                 ReceiptsFirst.receipts :=
                   {| ReceiptsFirst.delay := JNumber 600000;
                      ReceiptsFirst.recipient_status_filter :=
                        ["sent"; "delivered"] |} |}
              redis (DelayedData "Process undelivered message" "m1")
              (JSON_stringify m) Hs)
    as (H1 & _ & _ & _ & _ & _ & H7 & _).
  split; [exact H1|].
  exact (proj1 (H7 eq_refl (ltac:(discriminate)) eq_refl)).
Defined.


(** ** Fire-time evaluation *)

(** C1 (as amended). When the snapshot of a message is present at fire
    time, the evaluation removes it and creates at most one notification
    job: none when no recipient is in a watched status; otherwise exactly
    one, under the original (not [":receipts"]-suffixed) hook name, with
    payload [{message, recipients, identities}] -- at once with an empty
    identity map when identities are off, and with the last reply of the
    identity lookups, whatever order they complete in, when they are on.
    A second delivery of the same fire task finds no snapshot, sends only
    the read to Redis and creates nothing. *)
Theorem fire_emits_at_most_one_notification
    (client : string -> Receipts.Response) (hook : Receipts.Hook)
    (redis : gmap string JsonText) (data : JobData) (reply : JsonText)
    (order : list string) :
  redis !! Receipts.snapshot_key hook (data_messageId data) = Some reply ->
  let key := Receipts.snapshot_key hook (data_messageId data) in
  let message := JSON_parse reply in
  let recipients := Receipts.filter_recipients hook message in
  let notification identities :=
    {| job_type := Receipts.originalName hook;
       job_data := ReceiptData message recipients (Some identities);
       job_delay := None;
       job_attempts := 10;
       job_backoff := ("exponential", 1000%Z) |} in
  let o := Receipts.process_delayed_job client hook redis data in
  let redis' := redis_run redis (out_ops o) in
  let o' := Receipts.process_delayed_job client hook redis' data in
  (recipients = [] -> out_jobs o = [] /\ out_pending o = None)
  /\ (recipients <> [] ->
      Receipts.identities (Receipts.receipts hook) = Receipts.IdentitiesOff ->
      out_jobs o = [notification ∅] /\ out_pending o = None)
  /\ (recipients <> [] ->
      Receipts.identities (Receipts.receipts hook) <> Receipts.IdentitiesOff ->
      out_jobs o = []
      /\ exists j,
           out_pending o = Some j
           /\ join_identities j
              = default "undefined" (user_id (sender message)) :: recipients
           /\ (order ≡ₚ join_identities j ->
               exists hash,
                 (Receipts.run_replies hook j order).2 = [notification hash]
                 /\ forall u, u ∈ join_identities j ->
                              hash !! u = Some (join_getUser j u)))
  /\ redis' !! key = None
  /\ out_ops o' = [RedisGet key]
  /\ out_jobs o' = []
  /\ out_pending o' = None.
Proof.
  intros Hr key message recipients notification o redis' o'.
  fold key in Hr.
  assert (Ho : o = let '(jobs, pending) :=
                     Receipts.processMessage client hook message in
                   {| out_ops := [RedisGet key; RedisDel key];
                      out_jobs := jobs; out_pending := pending;
                      out_done := 1; out_thrown := false |}).
  { subst o. unfold Receipts.process_delayed_job. fold key. by rewrite Hr. }
  assert (Hops : out_ops o = [RedisGet key; RedisDel key]).
  { rewrite Ho. by destruct (Receipts.processMessage _ _ _). }
  assert (Hgone : redis' !! key = None).
  { subst redis'. rewrite Hops. simpl. apply lookup_delete_eq. }
  assert (Hpm : Receipts.processMessage client hook message
                = (out_jobs o, out_pending o)).
  { rewrite Ho. by destruct (Receipts.processMessage _ _ _). }
  unfold Receipts.processMessage in Hpm. fold recipients in Hpm.
  assert (Hsecond : out_ops o' = [RedisGet key] /\ out_jobs o' = []
                    /\ out_pending o' = None).
  { subst o'. unfold Receipts.process_delayed_job. fold key.
    by rewrite Hgone. }
  clear Ho. clearbody o' redis' o recipients.
  split; [|split; [|split; [|split; [done|done]]]].
  - intros He. rewrite He in Hpm. by injection Hpm as <- <-.
  - intros Hne Hoff. rewrite Hoff in Hpm.
    destruct recipients; [done|]. by injection Hpm as <- <-.
  - intros Hne Hon.
    set (ids := default "undefined" (user_id (sender message)) :: recipients)
      in *.
    assert (exists getUser,
              out_jobs o = []
              /\ out_pending o
                 = Some {| join_message := message;
                           join_recipients := recipients;
                           join_identities := ids;
                           join_getUser := getUser;
                           identityHash := ∅; count := 0 |})
      as (getUser & Hj & Hp).
    { destruct recipients; [done|].
      destruct (Receipts.identities (Receipts.receipts hook));
        [done| |]; injection Hpm as <- <-; by eexists. }
    split; [done|]. eexists. split; [exact Hp|]. split; [done|].
    intros Hperm.
    match type of Hperm with _ ≡ₚ join_identities ?j0 =>
      destruct (fan_in hook j0 order) as (hash & H1 & H2 & _);
        [done | done | done | exact Hperm |]
    end.
    exists hash. split; [exact H1 | exact H2].
Qed.

(** [message.sent] for a message with an undelivered recipient, then the
    fire task twice: one notification, then none. *)
Lemma fire_emits_at_most_one_notification_witness :
  let client := fun _ : string => Receipts.ResponseError "unused" in
  let hook :=
    {| Receipts.name := "Hook:receipts"; Receipts.originalName := "Hook";
       Receipts.path := "/hook"; Receipts.events := [];
       Receipts.receipts :=
         {| Receipts.delay := JNumber 600000;
            Receipts.reportForStatus := ["sent"];
            Receipts.identities := Receipts.IdentitiesOff |} |} in
  let m :=
    {| id := "m1";
       sender := {| user_id := Some "alice"; sender_name := None |};
       recipient_status := [("bob", "sent"); ("carol", "read")];
       parts := "hello" |} in
  let redis :=
    redis_run ∅
      (out_ops (Receipts.process_event hook
                  (EventData "Hook:receipts" "t0" "message.sent" None
                     (Some m)))) in
  let fire := DelayedData "Process undelivered message" "m1" in
  let o := Receipts.process_delayed_job client hook redis fire in
  let o' := Receipts.process_delayed_job client hook
              (redis_run redis (out_ops o)) fire in
  out_jobs o
  = [{| job_type := "Hook";
        job_data := ReceiptData m ["bob"] (Some ∅);
        job_delay := None;
        job_attempts := 10;
        job_backoff := ("exponential", 1000%Z) |}]
  /\ out_jobs o' = [] /\ out_pending o' = None.
Proof.
  intros client hook m redis fire o o'.
  destruct (fire_emits_at_most_one_notification client hook redis fire
              (JSON_stringify m) [] eq_refl)
    as (_ & H1 & _ & _ & _ & H2 & H3).
  split; [|by split].
  apply H1; [discriminate | reflexivity].
Defined.

(** C1, the claim as written fails: the snapshot of a message all of
    whose recipients have read it is present at fire time, and the
    evaluation creates no notification. *)
Lemma fire_without_watched_recipient_emits_nothing :
  let client := fun _ : string => Receipts.ResponseError "unused" in
  let hook :=
    {| Receipts.name := "Hook:receipts"; Receipts.originalName := "Hook";
       Receipts.path := "/hook"; Receipts.events := [];
       Receipts.receipts :=
         {| Receipts.delay := JNumber 600000;
            Receipts.reportForStatus := ["sent"];
            Receipts.identities := Receipts.IdentitiesOff |} |} in
  let m :=
    {| id := "m1";
       sender := {| user_id := Some "alice"; sender_name := None |};
       recipient_status := [("bob", "read")];
       parts := "hello" |} in
  let redis :=
    redis_run ∅
      (out_ops (Receipts.process_event hook
                  (EventData "Hook:receipts" "t0" "message.sent" None
                     (Some m)))) in
  let o := Receipts.process_delayed_job client hook redis
             (DelayedData "Process undelivered message" "m1") in
  ~ (redis !! Receipts.snapshot_key hook "m1" = Some (JSON_stringify m) ->
     exists job, out_jobs o = [job]).
Proof.
  intros client hook m redis o H.
  destruct (H eq_refl) as [job Hjob]. discriminate Hjob.
Qed.

(** ** Signature validation *)

Section Validation.

Variable stringify : Listen.Body -> string.
Variable utf8safe : string -> string.
Variable hmac_sha1_hex : string -> string -> string.
Variable secret : string.

(** Validation succeeds exactly when the header carries the computed
    hash. *)
Lemma validation_iff (req : Listen.Request) :
  Listen.handleValidation stringify utf8safe hmac_sha1_hex secret req = true
  <-> Listen.signature req
      = Some (hmac_sha1_hex secret (utf8safe (stringify (Listen.body req)))).
Proof.
  unfold Listen.handleValidation, Listen.computed_hash.
  destruct (Listen.signature req) as [s|]; [|done].
  rewrite String.eqb_eq. split; congruence.
Qed.

(** A mismatch is answered with 403 and nothing is enqueued. *)
Lemma mismatch_rejected (ms : jsval -> jsval) (hookDef : Listen.HookDef)
    (req : Listen.Request) :
  Listen.handleValidation stringify utf8safe hmac_sha1_hex secret req = false ->
  Listen.app_post ms stringify utf8safe hmac_sha1_hex secret hookDef req
  = (403, []).
Proof. unfold Listen.app_post. by intros ->. Qed.

(** A changed body is detected whenever the changed payload does not
    collide with the original one under the keyed hash; that no two
    payloads differing in one byte collide is a property of HMAC-SHA1
    itself, outside this development. *)
Lemma mutation_detected_unless_collision (req req' : Listen.Request) :
  Listen.signature req' = Listen.signature req ->
  hmac_sha1_hex secret (utf8safe (stringify (Listen.body req')))
  <> hmac_sha1_hex secret (utf8safe (stringify (Listen.body req))) ->
  Listen.handleValidation stringify utf8safe hmac_sha1_hex secret req = true ->
  Listen.handleValidation stringify utf8safe hmac_sha1_hex secret req' = false.
Proof.
  intros Hsig Hne Hok. apply validation_iff in Hok.
  apply not_true_is_false. intros Hok'. apply validation_iff in Hok'.
  congruence.
Qed.

End Validation.

(** * Further properties *)

(** ** More on strings *)

Lemma append_nil_r (a : string) : a +:+ "" = a.
Proof.
  induction a as [|x a IH]; [done|].
  change (String x (a +:+ "") = String x a). by rewrite IH.
Qed.

Lemma append_cancel_r (a b s : string) : a +:+ s = b +:+ s -> a = b.
Proof.
  revert b. induction a as [|x a IH]; intros [|y b] H.
  - done.
  - apply (f_equal String.length) in H. rewrite !length_append in H.
    simpl in H. lia.
  - apply (f_equal String.length) in H. rewrite !length_append in H.
    simpl in H. lia.
  - change (String x (a +:+ s) = String y (b +:+ s)) in H.
    injection H as -> H. f_equal. by apply IH.
Qed.

Lemma append_cancel_l (s a b : string) : s +:+ a = s +:+ b -> a = b.
Proof.
  induction s as [|x s IH]; [done|].
  change (String x (s +:+ a) = String x (s +:+ b) -> a = b).
  intros [= H]. by apply IH.
Qed.

Lemma ends_with_unfold (suf s : string) :
  ends_with suf s
  = if String.eqb s suf then true
    else match s with
         | EmptyString => false
         | String _ s' => ends_with suf s'
         end.
Proof. by destruct s. Qed.

Lemma strip_suffix_unfold (suf s : string) :
  strip_suffix suf s
  = if String.eqb s suf then ""
    else match s with
         | EmptyString => ""
         | String c s' => String c (strip_suffix suf s')
         end.
Proof. by destruct s. Qed.

Lemma ends_with_iff (suf s : string) :
  ends_with suf s = true <-> exists p, s = p +:+ suf.
Proof.
  induction s as [|c s IH]; rewrite ends_with_unfold.
  - destruct (String.eqb_spec "" suf) as [E|Hne].
    + split; [|done]. intros _. exists "". by rewrite <- E.
    + split; [done|]. intros [[|x p] Hp].
      * exfalso. by apply Hne.
      * discriminate Hp.
  - destruct (String.eqb_spec (String c s) suf) as [E|Hne].
    + split; [|done]. intros _. exists "". by rewrite <- E.
    + rewrite IH. split.
      * intros [p ->]. by exists (String c p).
      * intros [[|x p] Hp]; [exfalso; by apply Hne|].
        change (String c s = String x (p +:+ suf)) in Hp.
        injection Hp as -> ->. by exists p.
Qed.

Lemma strip_suffix_append (suf p : string) :
  strip_suffix suf (p +:+ suf) = p.
Proof.
  induction p as [|x p IH]; rewrite strip_suffix_unfold.
  - change ("" +:+ suf) with suf. by rewrite String.eqb_refl.
  - destruct (String.eqb_spec (String x p +:+ suf) suf) as [E|_].
    + apply (f_equal String.length) in E.
      rewrite length_append in E. simpl in E. lia.
    + change (String x (strip_suffix suf (p +:+ suf)) = String x p).
      by rewrite IH.
Qed.

Lemma strip_suffix_none (suf s : string) :
  ends_with suf s = false -> strip_suffix suf s = s.
Proof.
  induction s as [|c s IH];
    rewrite ends_with_unfold, strip_suffix_unfold.
  - by destruct (String.eqb "" suf).
  - destruct (String.eqb (String c s) suf); [done|].
    intros H. by rewrite IH.
Qed.

Lemma starts_with_append (p s : string) : starts_with p (p +:+ s) = true.
Proof. apply starts_with_iff. by exists s. Qed.

(** ** The listener *)

(** X1. The path the listener is mounted on always starts with a slash:
    a path that has one is kept, any other gets one prepended, so that
    normalizing a normalized path changes nothing. *)
Theorem listener_path_starts_with_slash (hookDef : Listen.HookDef) :
  let mounted := Listen.hook_path hookDef in
  starts_with "/" mounted = true
  /\ (mounted = Listen.path hookDef
      \/ mounted = "/" +:+ Listen.path hookDef
         /\ starts_with "/" (Listen.path hookDef) = false)
  /\ Listen.hook_path
       {| Listen.name := Listen.name hookDef;
          Listen.path := mounted;
          Listen.delay := Listen.delay hookDef |}
     = mounted.
Proof.
  intros mounted.
  assert (Hm : mounted = if starts_with "/" (Listen.path hookDef)
                         then Listen.path hookDef
                         else "/" +:+ Listen.path hookDef) by done.
  assert (Hs : starts_with "/" mounted = true).
  { rewrite Hm. destruct (starts_with "/" (Listen.path hookDef)) eqn:E;
      [done | apply starts_with_append]. }
  split; [done|]. split.
  - rewrite Hm. destruct (starts_with "/" (Listen.path hookDef));
      [by left | by right].
  - unfold Listen.hook_path at 1. simpl. by rewrite Hs.
Qed.

(** X2. A webhook POST is answered with 200, 400 or 403 and creates at
    most one job; a job is created only for a request that is answered
    200, passed the signature check, is not foreign and is not a bot echo;
    a request without the signature header is always answered 403. *)
Theorem post_creates_a_job_only_on_success
    (ms : jsval -> jsval) (stringify : Listen.Body -> string)
    (utf8safe : string -> string) (hmac_sha1_hex : string -> string -> string)
    (secret : string) (hookDef : Listen.HookDef) (req : Listen.Request) :
  let r :=
    Listen.app_post ms stringify utf8safe hmac_sha1_hex secret hookDef req in
  (r.1 = 200 \/ r.1 = 400 \/ r.1 = 403)
  /\ length r.2 <= 1
  /\ (r.2 <> [] ->
      r.1 = 200
      /\ Listen.signature req
         = Some (hmac_sha1_hex secret
                   (utf8safe (stringify (Listen.body req))))
      /\ Listen.foreign hookDef req = false
      /\ Listen.not_a_bot req = true)
  /\ (Listen.signature req = None -> r = (403, [])).
Proof.
  simpl. unfold Listen.app_post, Listen.post_handler.
  destruct (Listen.handleValidation _ _ _ _ _) eqn:Hv.
  - apply validation_iff in Hv.
    destruct (Listen.foreign hookDef req), (Listen.not_a_bot req); simpl;
      (split; [by auto|]); (split; [lia|]); (split; [done|]); congruence.
  - simpl. split; [by auto|]. split; [lia|]. done.
Qed.

Lemma post_creates_a_job_only_on_success_witness :
  let hookDef :=
    {| Listen.name := "Hook"; Listen.path := "hook";
       Listen.delay := JUndefined |} in
  let req :=
    {| Listen.body :=
         {| Listen.event_type := "conversation.created";
            Listen.event_created_at := "t0";
            Listen.config_name := "Hook";
            Listen.conversation := Some "c1";
            Listen.message := None |};
       Listen.signature := None |} in
  Listen.app_post (fun v => v) Listen.event_type (fun s => s) String.append
    "secret" hookDef req
  = (403, []).
Proof.
  intros hookDef req.
  exact (proj2 (proj2 (proj2 (post_creates_a_job_only_on_success
           (fun v => v) Listen.event_type (fun s => s) String.append
           "secret" hookDef req))) eq_refl).
Defined.



(** ** The receipt state machine *)

Lemma snapshot_key_inj (hook : Receipts.Hook) (a b : string) :
  Receipts.snapshot_key hook a = Receipts.snapshot_key hook b -> a = b.
Proof. unfold Receipts.snapshot_key. apply append_cancel_l. Qed.

Lemma process_events_app (hook : Receipts.Hook)
    (redis : gmap string JsonText) (l1 l2 : list JobData) :
  process_events hook redis (l1 ++ l2)
  = let '(redis1, jobs1) := process_events hook redis l1 in
    let '(redis2, jobs2) := process_events hook redis1 l2 in
    (redis2, jobs1 ++ jobs2).
Proof.
  revert redis. induction l1 as [|d l1 IH]; intros redis; simpl.
  - by destruct (process_events hook redis l2).
  - rewrite IH.
    destruct (process_events hook _ l1) as [redis1 jobs1].
    destruct (process_events hook redis1 l2) as [redis2 jobs2].
    by rewrite app_assoc.
Qed.

(** X4. The snapshots of one hook do not interfere: an event that is not
    a user's event about message [i] -- an event about another message, a
    payload without a message, or a bot echo, even one about message [i]
    -- leaves the snapshot of [i] as it was. *)
Theorem other_events_keep_the_snapshot (hook : Receipts.Hook)
    (redis : gmap string JsonText) (data : JobData) (i : string) :
  (forall m, data_message data = Some m ->
             id m <> i \/ truthy (sender_name (sender m)) = true) ->
  redis_run redis (out_ops (Receipts.process_event hook data))
    !! ("layer-webhooks-" +:+ Receipts.name hook +:+ "-" +:+ i)
  = redis !! ("layer-webhooks-" +:+ Receipts.name hook +:+ "-" +:+ i).
Proof.
  intros Hother.
  assert (Hkey : "layer-webhooks-" +:+ Receipts.name hook +:+ "-" +:+ i
                 = Receipts.snapshot_key hook i).
  { unfold Receipts.snapshot_key, REDIS_PREFIX. by rewrite !append_assoc. }
  rewrite Hkey. unfold Receipts.process_event.
  destruct (data_message data) as [m|]; [|done].
  destruct (truthy (sender_name (sender m))) eqn:Hbot; [done|].
  assert (Hk : Receipts.snapshot_key hook (id m)
               <> Receipts.snapshot_key hook i).
  { intros E. apply snapshot_key_inj in E.
    destruct (Hother m eq_refl) as [Hid|Hb]; [by apply Hid | congruence]. }
  repeat case_match; simpl; try done.
  - by apply lookup_insert_ne.
  - by apply lookup_insert_ne.
  - by apply lookup_delete_ne.
Qed.

(** A bot's [message.deleted] about a stored message leaves its
    snapshot. *)
Lemma other_events_keep_the_snapshot_witness :
  let hook :=
    {| Receipts.name := "Hook:receipts"; Receipts.originalName := "Hook";
       Receipts.path := "/hook"; Receipts.events := [];
       Receipts.receipts :=
         {| Receipts.delay := JNumber 600000;
            Receipts.reportForStatus := ["sent"];
            Receipts.identities := Receipts.IdentitiesOff |} |} in
  let m :=
    {| id := "m1";
       sender := {| user_id := Some "alice"; sender_name := None |};
       recipient_status := [("bob", "sent")];
       parts := "hello" |} in
  let echo :=
    {| id := "m1";
       sender := {| user_id := None; sender_name := Some "bot-service" |};
       recipient_status := [("bob", "sent")];
       parts := "hello" |} in
  let redis : gmap string JsonText :=
    {[ "layer-webhooks-Hook:receipts-m1" := JSON_stringify m ]} in
  redis_run redis
    (out_ops (Receipts.process_event hook
                (EventData "Hook:receipts" "t0" "message.deleted" None
                   (Some echo))))
    !! "layer-webhooks-Hook:receipts-m1"
  = Some (JSON_stringify m).
Proof.
  intros hook m echo redis.
  refine (eq_trans (other_events_keep_the_snapshot hook redis _ "m1" _) _).
  - intros m' [= <-]. by right.
  - reflexivity.
Defined.

(** X5. Over any run of event jobs, one delayed check is created per
    user-sent [message.sent] event and none for anything else, and every
    job the event processor creates is a delayed check of its hook. *)
Theorem one_check_per_sent_event (hook : Receipts.Hook)
    (redis : gmap string JsonText) (jobs : list JobData) :
  length (process_events hook redis jobs).2
  = length (List.filter arms_check jobs)
  /\ Forall (fun job =>
               job_type job = Receipts.name hook +:+ " delayed-job"
               /\ job_delay job = Some (Receipts.delay (Receipts.receipts hook)))
       (process_events hook redis jobs).2.
Proof.
  revert redis. induction jobs as [|data jobs IH]; intros redis; simpl.
  - split; [done | constructor].
  - specialize (IH (redis_run redis
                      (out_ops (Receipts.process_event hook data)))).
    destruct (process_events hook _ jobs) as [redis' created].
    simpl in *. destruct IH as [IHlen IHall].
    rewrite length_app, Forall_app, IHlen.
    unfold Receipts.process_event, arms_check.
    destruct data as [title ts type conv [m|] | | m recipients ids]; simpl;
      try (split; [done | split; [constructor | done]]).
    + destruct (truthy (sender_name (sender m))); simpl;
        [split; [done | split; [constructor | done]]|].
      destruct (String.eqb type "message.sent"); simpl.
      * split; [done|]. split; [|done]. by repeat constructor.
      * repeat case_match; simpl;
          (split; [done | split; [constructor | done]]).
    + destruct (truthy (sender_name (sender m))); simpl;
        (split; [done | split; [constructor | done]]).
Qed.

Lemma process_events_frame (hook : Receipts.Hook) (i : string)
    (jobs : list JobData) (redis : gmap string JsonText) :
  Forall (fun d => forall m, data_message d = Some m -> id m <> i) jobs ->
  (process_events hook redis jobs).1 !! Receipts.snapshot_key hook i
  = redis !! Receipts.snapshot_key hook i.
Proof.
  intros H. revert redis. induction H as [|d jobs Hd _ IH]; intros redis.
  - done.
  - simpl. specialize (IH (redis_run redis
                             (out_ops (Receipts.process_event hook d)))).
    destruct (process_events hook _ jobs) as [redis' created]. simpl in *.
    rewrite IH. unfold Receipts.process_event.
    destruct (data_message d) as [m|] eqn:E; [|done].
    assert (Hk : Receipts.snapshot_key hook (id m)
                 <> Receipts.snapshot_key hook i).
    { intros E'. apply snapshot_key_inj in E'. by apply (Hd m). }
    repeat case_match; simpl; try done.
    + by apply lookup_insert_ne.
    + by apply lookup_insert_ne.
    + by apply lookup_delete_ne.
Qed.

Lemma process_events_last (hook : Receipts.Hook)
    (redis : gmap string JsonText) (before after : list JobData)
    (e : JobData) (i : string) :
  Forall (fun d => forall m, data_message d = Some m -> id m <> i) after ->
  (process_events hook redis (before ++ e :: after)).1
    !! Receipts.snapshot_key hook i
  = redis_run (process_events hook redis before).1
      (out_ops (Receipts.process_event hook e))
    !! Receipts.snapshot_key hook i.
Proof.
  intros Hafter. rewrite process_events_app.
  destruct (process_events hook redis before) as [redis1 jobs1].
  simpl.
  pose proof (process_events_frame hook i after
                (redis_run redis1 (out_ops (Receipts.process_event hook e)))
                Hafter) as Hf.
  destruct (process_events hook _ after) as [redis2 jobs2]. by simpl in *.
Qed.

(** X6. The snapshot of a message is decided by the last event about it:
    after any run of event jobs in which the last event about message [m]
    is a user-sent [message.sent], [message.delivered] or [message.read],
    the store holds the JSON text of that event's message; when it is
    [message.deleted], the store holds nothing for it -- whatever was
    stored and whatever events came before. *)
Theorem last_event_decides_the_snapshot (hook : Receipts.Hook)
    (redis : gmap string JsonText) (before after : list JobData)
    (title timestamp type : string) (conv : option string) (m : Message) :
  truthy (sender_name (sender m)) = false ->
  Forall (fun d => forall m', data_message d = Some m' -> id m' <> id m)
    after ->
  let redis' :=
    (process_events hook redis
       (before ++ EventData title timestamp type conv (Some m) :: after)).1 in
  (type = "message.sent" \/ type = "message.delivered"
   \/ type = "message.read" ->
   redis' !! Receipts.snapshot_key hook (id m) = Some (JSON_stringify m))
  /\ (type = "message.deleted" ->
      redis' !! Receipts.snapshot_key hook (id m) = None).
Proof.
  intros Hn Hafter redis'. subst redis'.
  rewrite (process_events_last hook redis before after _ (id m) Hafter).
  unfold Receipts.process_event. simpl. rewrite Hn.
  split.
  - intros [-> | [-> | ->]]; simpl; apply lookup_insert_eq.
  - intros ->. simpl. apply lookup_delete_eq.
Qed.

Lemma last_event_decides_the_snapshot_witness :
  let hook :=
    {| Receipts.name := "Hook:receipts"; Receipts.originalName := "Hook";
       Receipts.path := "/hook"; Receipts.events := [];
       Receipts.receipts :=
         {| Receipts.delay := JNumber 600000;
            Receipts.reportForStatus := ["sent"];
            Receipts.identities := Receipts.IdentitiesOff |} |} in
  let m status :=
    {| id := "m1";
       sender := {| user_id := Some "alice"; sender_name := None |};
       recipient_status := [("bob", status)];
       parts := "hello" |} in
  (process_events hook ∅
     [EventData "Hook:receipts" "t0" "message.sent" None (Some (m "sent"));
      EventData "Hook:receipts" "t1" "message.read" None (Some (m "read"))]).1
    !! Receipts.snapshot_key hook "m1"
  = Some (JSON_stringify (m "read")).
Proof.
  intros hook m.
  refine (proj1 (last_event_decides_the_snapshot hook ∅
                   [EventData "Hook:receipts" "t0" "message.sent" None
                      (Some (m "sent"))]
                   [] "Hook:receipts" "t1" "message.read" None (m "read")
                   eq_refl (Forall_nil_2 _)) _).
  right. by right.
Defined.

(** X7. Deletion cancels the check: once the last event about a user-sent
    message is [message.deleted], the delayed check of that message only
    reads the store; it removes nothing, creates no notification, starts
    no lookup, calls [done] once and throws nothing. *)
Theorem deletion_cancels_the_check (client : string -> Receipts.Response)
    (hook : Receipts.Hook) (redis : gmap string JsonText)
    (before after : list JobData) (title timestamp : string)
    (conv : option string) (m : Message) (check_title : string) :
  truthy (sender_name (sender m)) = false ->
  Forall (fun d => forall m', data_message d = Some m' -> id m' <> id m)
    after ->
  let redis' :=
    (process_events hook redis
       (before
        ++ EventData title timestamp "message.deleted" conv (Some m)
        :: after)).1 in
  Receipts.process_delayed_job client hook redis'
    (DelayedData check_title (id m))
  = {| out_ops := [RedisGet (Receipts.snapshot_key hook (id m))];
       out_jobs := []; out_pending := None;
       out_done := 1; out_thrown := false |}.
Proof.
  intros Hn Hafter redis'.
  assert (Hgone : redis' !! Receipts.snapshot_key hook (id m) = None).
  { subst redis'.
    rewrite (process_events_last hook redis before after _ (id m) Hafter).
    unfold Receipts.process_event. simpl. rewrite Hn. simpl.
    apply lookup_delete_eq. }
  unfold Receipts.process_delayed_job. simpl. by rewrite Hgone.
Qed.

Lemma deletion_cancels_the_check_witness :
  let hook :=
    {| Receipts.name := "Hook:receipts"; Receipts.originalName := "Hook";
       Receipts.path := "/hook"; Receipts.events := [];
       Receipts.receipts :=
         {| Receipts.delay := JNumber 600000;
            Receipts.reportForStatus := ["sent"];
            Receipts.identities := Receipts.IdentitiesOff |} |} in
  let m :=
    {| id := "m1";
       sender := {| user_id := Some "alice"; sender_name := None |};
       recipient_status := [("bob", "sent")];
       parts := "hello" |} in
  out_jobs
    (Receipts.process_delayed_job (fun _ => Receipts.ResponseError "unused")
       hook
       (process_events hook ∅
          [EventData "Hook:receipts" "t0" "message.sent" None (Some m);
           EventData "Hook:receipts" "t1" "message.deleted" None (Some m)]).1
       (DelayedData "Process undelivered message" "m1"))
  = [].
Proof.
  intros hook m.
  exact (f_equal out_jobs
           (deletion_cancels_the_check
              (fun _ => Receipts.ResponseError "unused") hook ∅
              [EventData "Hook:receipts" "t0" "message.sent" None (Some m)]
              [] "Hook:receipts" "t1" None m
              "Process undelivered message" eq_refl (Forall_nil_2 _))).
Defined.

(** X8. The check armed by [message.sent] reads what [message.sent]
    stored: the delayed job created for a user-sent message, run on the
    store the event left, finds the snapshot, evaluates the message parsed
    from its JSON text, and removes it. *)
Theorem armed_check_reads_its_snapshot (client : string -> Receipts.Response)
    (hook : Receipts.Hook) (redis : gmap string JsonText)
    (title timestamp : string) (conv : option string) (m : Message) :
  truthy (sender_name (sender m)) = false ->
  let o := Receipts.process_event hook
             (EventData title timestamp "message.sent" conv (Some m)) in
  let redis' := redis_run redis (out_ops o) in
  Forall (fun job =>
            let fired :=
              Receipts.process_delayed_job client hook redis' (job_data job) in
            out_ops fired
            = [RedisGet (Receipts.snapshot_key hook (id m));
               RedisDel (Receipts.snapshot_key hook (id m))]
            /\ (out_jobs fired, out_pending fired)
               = Receipts.processMessage client hook
                   (JSON_parse (JSON_stringify m)))
    (out_jobs o)
  /\ length (out_jobs o) = 1.
Proof.
  intros Hn. simpl. unfold Receipts.process_event. simpl. rewrite Hn. simpl.
  split; [|done]. constructor; [|constructor].
  unfold Receipts.process_delayed_job. simpl.
  rewrite lookup_insert_eq.
  by destruct (Receipts.processMessage client hook _).
Qed.

Lemma armed_check_reads_its_snapshot_witness :
  let hook :=
    {| Receipts.name := "Hook:receipts"; Receipts.originalName := "Hook";
       Receipts.path := "/hook"; Receipts.events := [];
       Receipts.receipts :=
         {| Receipts.delay := JNumber 600000;
            Receipts.reportForStatus := ["sent"];
            Receipts.identities := Receipts.IdentitiesOff |} |} in
  let m :=
    {| id := "m1";
       sender := {| user_id := Some "alice"; sender_name := None |};
       recipient_status := [("bob", "sent")];
       parts := "hello" |} in
  length (out_jobs (Receipts.process_event hook
                      (EventData "Hook:receipts" "t0" "message.sent" None
                         (Some m)))) = 1.
Proof.
  intros hook m.
  exact (proj2 (armed_check_reads_its_snapshot
                  (fun _ => Receipts.ResponseError "unused") hook ∅
                  "Hook:receipts" "t0" None m eq_refl)).
Defined.

(** ** More on the evaluation *)



Lemma run_replies_surplus (hook : Receipts.Hook) (order : list string)
    (j : Join) :
  length (join_identities j) <= count j ->
  (Receipts.run_replies hook j order).2 = [].
Proof.
  revert j. induction order as [|u order IH]; intros j Hle; [done|].
  rewrite run_replies_cons, on_reply_jobs, IH.
  - destruct (Nat.eqb_spec (S (count j)) (length (join_identities j)));
      [lia | done].
  - simpl. lia.
Qed.

(** X10. The fan-in never creates two notifications: for a fresh fan-out
    over a non-empty list of ids and any sequence of callbacks -- too few,
    repeated, or more than were asked for -- exactly one job is created
    when at least as many callbacks arrive as there are ids, and none
    otherwise. *)
Theorem at_most_one_notification_per_fan_out (hook : Receipts.Hook)
    (j : Join) (order : list string) :
  count j = 0 ->
  join_identities j <> [] ->
  length (Receipts.run_replies hook j order).2
  = if Nat.leb (length (join_identities j)) (length order) then 1 else 0.
Proof.
  intros Hc Hne.
  destruct (Nat.leb_spec (length (join_identities j)) (length order))
    as [Hle|Hlt].
  - rewrite <- (take_drop (length (join_identities j)) order).
    rewrite run_replies_app.
    pose proof (run_replies_complete hook
                  (take (length (join_identities j)) order) j) as Hfirst.
    pose proof (run_replies_state hook
                  (take (length (join_identities j)) order) j) as Hstate.
    destruct (Receipts.run_replies hook j (take _ order)) as [j1 jobs1].
    simpl in Hfirst, Hstate.
    destruct Hstate as (_ & _ & Hids & _ & Hcount & _).
    pose proof (run_replies_surplus hook
                  (drop (length (join_identities j)) order) j1) as Hrest.
    destruct (Receipts.run_replies hook j1 (drop _ order)) as [j2 jobs2].
    simpl in Hrest. rewrite length_take in Hfirst, Hcount.
    assert (Hpos : 0 < length (join_identities j)).
    { destruct (join_identities j); [done | simpl; lia]. }
    simpl. rewrite Hfirst, Hrest; [done | rewrite Hids, Hcount; lia | | lia].
    intros E. apply (f_equal length) in E. rewrite length_take in E.
    simpl in E. lia.
  - rewrite run_replies_waiting by lia. done.
Qed.

Lemma at_most_one_notification_per_fan_out_witness :
  let hook :=
    {| Receipts.name := "Hook:receipts"; Receipts.originalName := "Hook";
       Receipts.path := "/hook"; Receipts.events := [];
       Receipts.receipts :=
         {| Receipts.delay := JNumber 600000;
            Receipts.reportForStatus := ["sent"];
            Receipts.identities := Receipts.IdentitiesOn |} |} in
  let j :=
    {| join_message :=
         {| id := "m1";
            sender := {| user_id := Some "alice"; sender_name := None |};
            recipient_status := [("bob", "sent")];
            parts := "hello" |};
       join_recipients := ["bob"];
       join_identities := ["alice"; "bob"];
       join_getUser := fun _ => None;
       identityHash := ∅;
       count := 0 |} in
  length (Receipts.run_replies hook j ["bob"; "bob"; "alice"; "bob"]).2 = 1.
Proof.
  intros hook j.
  exact (at_most_one_notification_per_fan_out hook j
           ["bob"; "bob"; "alice"; "bob"] eq_refl (ltac:(discriminate))).
Defined.

Lemma omap_pointwise {A B : Type} (f g : A -> option B) (l : list A) :
  (forall x, f x = g x) -> omap f l = omap g l.
Proof.
  intros H. induction l as [|x l IH]; [done|].
  simpl. rewrite H. destruct (g x); [f_equal|]; exact IH.
Qed.

Lemma members_members (o : JSObject.t) :
  JSObject.wf o -> JSObject.members (JSObject.members o) = JSObject.members o.
Proof.
  intros Hwf. unfold JSObject.members at 1 3.
  rewrite Object_keys_members, members_keys.
  apply omap_pointwise. intros k. by rewrite get_members.
Qed.

(** X11. Storing and re-reading a message keeps what the evaluation looks
    at: the message parsed from the stored JSON text has the same [id],
    [sender] and [parts], the same status for every user id, and the same
    watched recipients in the same order as the message of the event; and
    serializing it again gives the stored text. *)
Theorem snapshot_round_trip (hook : Receipts.Hook) (m : Message) :
  JSObject.wf (recipient_status m) ->
  let m' := JSON_parse (JSON_stringify m) in
  id m' = id m /\ sender m' = sender m /\ parts m' = parts m
  /\ (forall u, JSObject.get (recipient_status m') u
                = JSObject.get (recipient_status m) u)
  /\ recipient_status m' ≡ₚ recipient_status m
  /\ Receipts.filter_recipients hook m' = Receipts.filter_recipients hook m
  /\ JSON_stringify m' = JSON_stringify m.
Proof.
  intros Hwf m'.
  assert (Hrs : recipient_status m' = JSObject.members (recipient_status m)).
  { subst m'. simpl. by apply of_members_members. }
  split; [done|]. split; [done|]. split; [done|].
  split; [intros u; rewrite Hrs; by apply get_members|].
  split; [|split].
  - rewrite Hrs. apply NoDup_Permutation.
    + apply (NoDup_fmap_1 fst). rewrite members_keys.
      by apply Object_keys_NoDup.
    + by apply (NoDup_fmap_1 fst).
    + intros [k v]. rewrite elem_of_members. split.
      * apply get_elem_of.
      * by apply get_NoDup.
  - unfold Receipts.filter_recipients, Receipts.watched. rewrite Hrs.
    rewrite Object_keys_members, members_keys.
    apply filter_ext. intros u. by rewrite get_members.
  - unfold JSON_stringify. rewrite Hrs. subst m'. simpl.
    by rewrite members_members.
Qed.

Lemma snapshot_round_trip_witness :
  let hook :=
    {| Receipts.name := "Hook:receipts"; Receipts.originalName := "Hook";
       Receipts.path := "/hook"; Receipts.events := [];
       Receipts.receipts :=
         {| Receipts.delay := JNumber 600000;
            Receipts.reportForStatus := ["sent"];
            Receipts.identities := Receipts.IdentitiesOff |} |} in
  let m :=
    {| id := "m1";
       sender := {| user_id := Some "alice"; sender_name := None |};
       recipient_status := [("bob", "sent"); ("7", "sent"); ("al", "read")];
       parts := "hello" |} in
  recipient_status (JSON_parse (JSON_stringify m))
  = [("7", "sent"); ("bob", "sent"); ("al", "read")]
  /\ Receipts.filter_recipients hook (JSON_parse (JSON_stringify m))
     = Receipts.filter_recipients hook m.
Proof.
  intros hook m. split; [reflexivity|].
  refine (proj1 (proj2 (proj2 (proj2 (proj2 (proj2
            (snapshot_round_trip hook m _))))))).
  apply (bool_decide_unpack _). by vm_compute.
Defined.

(** X12. With an empty status filter the service never notifies: the
    evaluation of any snapshot creates no job and starts no lookup (and
    still removes the snapshot it read). *)
Theorem empty_filter_never_notifies (client : string -> Receipts.Response)
    (hook : Receipts.Hook) (redis : gmap string JsonText) (data : JobData) :
  Receipts.reportForStatus (Receipts.receipts hook) = [] ->
  let o := Receipts.process_delayed_job client hook redis data in
  out_jobs o = [] /\ out_pending o = None
  /\ redis_run redis (out_ops o)
       !! Receipts.snapshot_key hook (data_messageId data) = None.
Proof.
  intros Hempty. simpl. unfold Receipts.process_delayed_job.
  destruct (redis !! Receipts.snapshot_key hook (data_messageId data))
    as [reply|] eqn:E; simpl; [|done].
  assert (Hf : Receipts.filter_recipients hook (JSON_parse reply) = []).
  { unfold Receipts.filter_recipients, Receipts.watched. rewrite Hempty.
    induction (JSObject.Object_keys _) as [|k l IH]; [done|].
    simpl. by destruct (JSObject.get _ k). }
  unfold Receipts.processMessage. rewrite Hf. simpl.
  split; [done|]. split; [done|]. apply lookup_delete_eq.
Qed.

Lemma empty_filter_never_notifies_witness :
  let hook :=
    {| Receipts.name := "Hook:receipts"; Receipts.originalName := "Hook";
       Receipts.path := "/hook"; Receipts.events := [];
       Receipts.receipts :=
         {| Receipts.delay := JNumber 600000;
            Receipts.reportForStatus := [];
            Receipts.identities := Receipts.IdentitiesOn |} |} in
  let m :=
    {| id := "m1";
       sender := {| user_id := Some "alice"; sender_name := None |};
       recipient_status := [("bob", "sent")];
       parts := "hello" |} in
  out_jobs
    (Receipts.process_delayed_job (fun _ => Receipts.ResponseError "unused")
       hook {[ Receipts.snapshot_key hook "m1" := JSON_stringify m ]}
       (DelayedData "Process undelivered message" "m1"))
  = [].
Proof.
  intros hook m.
  exact (proj1 (empty_filter_never_notifies
                  (fun _ => Receipts.ResponseError "unused") hook
                  {[ Receipts.snapshot_key hook "m1" := JSON_stringify m ]}
                  (DelayedData "Process undelivered message" "m1") eq_refl)).
Defined.

(** ** Several hooks on one store *)

Lemma snapshot_key_hooks (hook1 hook2 : Receipts.Hook) (i : string) :
  Receipts.name hook1 <> Receipts.name hook2 ->
  Receipts.snapshot_key hook1 i <> Receipts.snapshot_key hook2 i.
Proof.
  unfold Receipts.snapshot_key. intros Hne E. rewrite !append_assoc in E.
  apply append_cancel_l in E. rewrite <- !append_assoc in E.
  by apply append_cancel_r, append_cancel_r in E.
Qed.

(** X13. Two receipts hooks with different names keep separate snapshots
    of the same message: neither an event about the message handled for
    one hook nor the fire-time evaluation of that hook changes what the
    other hook has stored for it. *)
Theorem hooks_keep_separate_snapshots (client : string -> Receipts.Response)
    (hook1 hook2 : Receipts.Hook) (redis : gmap string JsonText)
    (title timestamp type : string) (conv : option string) (m : Message)
    (check_title : string) :
  Receipts.name hook1 <> Receipts.name hook2 ->
  redis_run redis
    (out_ops (Receipts.process_event hook1
                (EventData title timestamp type conv (Some m))))
    !! Receipts.snapshot_key hook2 (id m)
  = redis !! Receipts.snapshot_key hook2 (id m)
  /\ redis_run redis
       (out_ops (Receipts.process_delayed_job client hook1 redis
                   (DelayedData check_title (id m))))
       !! Receipts.snapshot_key hook2 (id m)
     = redis !! Receipts.snapshot_key hook2 (id m).
Proof.
  intros Hne. pose proof (snapshot_key_hooks hook1 hook2 (id m) Hne) as Hk.
  split.
  - unfold Receipts.process_event. simpl.
    repeat case_match; simpl; try done.
    + by apply lookup_insert_ne.
    + by apply lookup_insert_ne.
    + by apply lookup_delete_ne.
  - unfold Receipts.process_delayed_job. simpl.
    destruct (redis !! Receipts.snapshot_key hook1 (id m)); simpl; [|done].
    destruct (Receipts.processMessage client hook1 _). simpl.
    by apply lookup_delete_ne.
Qed.

Lemma hooks_keep_separate_snapshots_witness :
  let hook name :=
    {| Receipts.name := name +:+ ":receipts"; Receipts.originalName := name;
       Receipts.path := "/hook"; Receipts.events := [];
       Receipts.receipts :=
         {| Receipts.delay := JNumber 600000;
            Receipts.reportForStatus := ["sent"];
            Receipts.identities := Receipts.IdentitiesOff |} |} in
  let m :=
    {| id := "m1";
       sender := {| user_id := Some "alice"; sender_name := None |};
       recipient_status := [("bob", "sent")];
       parts := "hello" |} in
  let redis : gmap string JsonText :=
    {[ Receipts.snapshot_key (hook "Unread") "m1" := JSON_stringify m ]} in
  redis_run redis
    (out_ops (Receipts.process_event (hook "Undelivered")
                (EventData "Undelivered:receipts" "t0" "message.deleted"
                   None (Some m))))
    !! Receipts.snapshot_key (hook "Unread") "m1"
  = Some (JSON_stringify m).
Proof.
  intros hook m redis.
  refine (eq_trans
            (proj1 (hooks_keep_separate_snapshots
                      (fun _ => Receipts.ResponseError "unused")
                      (hook "Undelivered") (hook "Unread") redis
                      "Undelivered:receipts" "t0" "message.deleted" None m
                      "Process undelivered message" _)) _).
  - discriminate.
  - reflexivity.
Defined.

(** X14. In the first revision the snapshot of a message is shared by all
    hooks: once the check of any hook has run for a message, the check of
    every hook for that message finds nothing and creates no notification,
    whatever the recipients' statuses were. *)
Theorem first_revision_hooks_share_the_snapshot
    (hookA hookB : ReceiptsFirst.Hook) (redis : gmap string JsonText)
    (data : JobData) :
  let redis' :=
    redis_run redis
      (out_ops (ReceiptsFirst.process_delayed_job hookA redis data)) in
  ReceiptsFirst.process_delayed_job hookB redis' data
  = {| out_ops := [RedisGet (ReceiptsFirst.snapshot_key (data_messageId data))];
       out_jobs := []; out_pending := None;
       out_done := 1; out_thrown := false |}.
Proof.
  intros redis'.
  assert (Hgone : redis' !! ReceiptsFirst.snapshot_key (data_messageId data)
                  = None).
  { subst redis'. unfold ReceiptsFirst.process_delayed_job.
    destruct (redis !! ReceiptsFirst.snapshot_key (data_messageId data))
      eqn:E; simpl; [apply lookup_delete_eq | done]. }
  clearbody redis'. unfold ReceiptsFirst.process_delayed_job.
  by rewrite Hgone.
Qed.

(** X15. The three queues of one mapped hook are pairwise distinct: the
    notification job is queued under the caller's name, which is neither
    the hook's event queue ([name + ":receipts"]) nor its delayed-check
    queue, and those two differ. Across hooks the names can coincide (the
    notification queue of a hook named [X:receipts] is the event queue of
    a hook named [X]); a notification job handled by the event processor
    of any hook is acknowledged and ignored: no Redis command, no job, no
    lookup, nothing thrown. *)
Theorem notification_queue_and_service_queues (ms : jsval -> jsval)
    (input : Receipts.HookInput) (other : Receipts.Hook) (m : Message)
    (recipients : list string) (identities : gmap string (option Identity)) :
  let hook := Receipts.map_hook ms input in
  let notification := Receipts.createJob hook m recipients identities in
  notification
  = {| job_type := Receipts.in_name input;
       job_data := ReceiptData m recipients (Some identities);
       job_delay := None;
       job_attempts := 10;
       job_backoff := ("exponential", 1000%Z) |}
  /\ job_type notification <> Receipts.in_name input +:+ ":receipts"
  /\ job_type notification
     <> Receipts.in_name input +:+ ":receipts" +:+ " delayed-job"
  /\ Receipts.name hook = Receipts.in_name input +:+ ":receipts"
  /\ job_type (Receipts.delayed_job hook m)
     = Receipts.in_name input +:+ ":receipts" +:+ " delayed-job"
  /\ Receipts.name hook <> job_type (Receipts.delayed_job hook m)
  /\ Receipts.process_event other (job_data notification)
     = {| out_ops := []; out_jobs := []; out_pending := None;
          out_done := if truthy (sender_name (sender m)) then 2 else 1;
          out_thrown := false |}.
Proof.
  simpl. split; [done|].
  assert (Hlen : forall a b : string,
             b <> "" -> a <> a +:+ b /\ a +:+ b <> a).
  { intros a b Hb.
    assert (String.length b <> 0) by by destruct b.
    split; intros E; apply (f_equal String.length) in E;
      rewrite length_append in E; lia. }
  split; [by apply (Hlen (Receipts.in_name input) ":receipts")|].
  split; [by apply (Hlen (Receipts.in_name input))|].
  split; [done|]. split; [by rewrite append_assoc|].
  split; [by apply (Hlen (Receipts.in_name input +:+ ":receipts"))|].
  unfold Receipts.process_event. simpl.
  by destruct (truthy (sender_name (sender m))).
Qed.

(** Hooks named [X] and [X:receipts] in one call: the notifications of
    the second are queued where the first listens for events. *)
Example notification_queue_of_a_suffixed_hook :
  let hook name :=
    Receipts.map_hook (fun v => v)
      {| Receipts.in_name := name;
         Receipts.in_path := "/hook";
         Receipts.in_events := [];
         Receipts.in_delay := JUndefined;
         Receipts.in_receipts :=
           {| Receipts.delay := JString "10 minutes";
              Receipts.reportForStatus := ["sent"];
              Receipts.identities := Receipts.IdentitiesOff |} |} in
  Receipts.originalName (hook "X:receipts") = Receipts.name (hook "X").
Proof. reflexivity. Qed.

(** ** Registration *)

Lemma append_last_inj (x y a b : string) :
  String.length a = 1 -> String.length b = 1 ->
  x +:+ a = y +:+ b -> a = b.
Proof.
  intros Ha Hb. revert y. induction x as [|c x IH]; intros [|d y] E.
  - done.
  - apply (f_equal String.length) in E. rewrite !length_append in E.
    simpl in E. lia.
  - apply (f_equal String.length) in E. rewrite !length_append in E.
    simpl in E. lia.
  - change (String c (x +:+ a) = String d (y +:+ b)) in E.
    injection E as _ E. by apply (IH y).
Qed.

Lemma slash_is_not_port (s : string) :
  ends_with "/" s = true -> ends_with ":443" s = false.
Proof.
  intros [p Hp]%ends_with_iff. apply not_true_is_false.
  intros [q Hq]%ends_with_iff. rewrite Hp in Hq.
  change (q +:+ ":443") with (q +:+ (":44" +:+ "3")) in Hq.
  rewrite <- append_assoc in Hq.
  by apply append_last_inj in Hq.
Qed.

Section BaseUrl.

Variable options : Register.Options.

Lemma base_url_slash : ends_with "/" (Register.base_url options) = true.
Proof.
  unfold Register.base_url.
  destruct (ends_with "/" (strip_suffix ":443" (Register.url options)))
    eqn:E; [done|].
  apply ends_with_iff. by eexists.
Qed.

(** X16. The base url used for every registration ends with a slash, and
    normalizing is idempotent: registering with an already normalized url
    uses that url unchanged. *)
Theorem base_url_is_normalized :
  ends_with "/" (Register.base_url options) = true
  /\ Register.base_url
       {| Register.url := Register.base_url options;
          Register.secret := Register.secret options;
          Register.hooks := Register.hooks options |}
     = Register.base_url options.
Proof.
  split; [apply base_url_slash|].
  unfold Register.base_url at 1. simpl.
  rewrite (strip_suffix_none ":443" (Register.base_url options))
    by apply slash_is_not_port, base_url_slash.
  by rewrite base_url_slash.
Qed.

(** X17. A url that ends with [":443"] loses the port: the base url is
    what precedes the port, with a slash appended unless it ends with
    one. *)
Theorem port_443_is_dropped (u : string) :
  Register.url options = u +:+ ":443" ->
  Register.base_url options = if ends_with "/" u then u else u +:+ "/".
Proof.
  intros Hu. unfold Register.base_url. by rewrite Hu, strip_suffix_append.
Qed.

End BaseUrl.

Lemma port_443_is_dropped_witness :
  Register.base_url
    {| Register.url := "https://mydomain.com:443";
       Register.secret := "my secret";
       Register.hooks := [] |}
  = "https://mydomain.com/".
Proof.
  exact (port_443_is_dropped
           {| Register.url := "https://mydomain.com:443";
              Register.secret := "my secret";
              Register.hooks := [] |}
           "https://mydomain.com" eq_refl).
Defined.

Lemma head_filter_None {A : Type} (f : A -> bool) (l : list A) :
  head (List.filter f l) = None <-> forall x, x ∈ l -> f x = false.
Proof.
  induction l as [|a l IH]; simpl.
  - split; [|done]. intros _ x Hx. by apply elem_of_nil in Hx.
  - destruct (f a) eqn:E; simpl.
    + split; [done|]. intros H. specialize (H a (list_elem_of_here _ _)).
      congruence.
    + rewrite IH. split.
      * intros H x [->|Hx]%elem_of_cons; auto.
      * intros H x Hx. apply H. by right.
Qed.

Lemma head_filter_Some {A : Type} (f : A -> bool) (l : list A) (x : A) :
  head (List.filter f l) = Some x -> x ∈ l /\ f x = true.
Proof.
  induction l as [|a l IH]; simpl; [done|].
  destruct (f a) eqn:E; simpl.
  - intros [= ->]. split; [by left | done].
  - intros H. destruct (IH H). split; [by right | done].
Qed.

Lemma matches_iff (options : Register.Options) (hookDef : Register.HookDef)
    (w : Register.Webhook) :
  Register.matches options hookDef w = true
  <-> Register.config_name w = Register.name hookDef
      /\ Register.target_url w
         = Register.base_url options +:+ Register.path hookDef.
Proof.
  unfold Register.matches. by rewrite andb_true_iff, !String.eqb_eq.
Qed.

(** X18. Registration never duplicates a webhook: for a hook, a webhook is
    registered only when the listing has none with the hook's name and
    target url (then exactly one is, at base url + path, with the caller's
    secret and events); when the listing has one, the only call that can
    be made is enabling a listed, matching webhook that is not active. *)
Theorem registration_never_duplicates (options : Register.Options)
    (currentHooks : list Register.Webhook) (hookDef : Register.HookDef) :
  let target := Register.base_url options +:+ Register.path hookDef in
  let listed :=
    exists w, w ∈ currentHooks
              /\ Register.config_name w = Register.name hookDef
              /\ Register.target_url w = target in
  let calls := Register.registerHook options currentHooks hookDef in
  (~ listed ->
   calls = [Register.RegisterCall target (Register.events hookDef)
              (Register.secret options) (Register.name hookDef)])
  /\ (listed ->
      calls = []
      \/ exists w, w ∈ currentHooks
                   /\ Register.config_name w = Register.name hookDef
                   /\ Register.target_url w = target
                   /\ Register.status w <> "active"
                   /\ calls = [Register.Enable (Register.id w)]).
Proof.
  intros target listed calls. subst calls.
  unfold Register.registerHook, Register.getWebhook.
  destruct (head (List.filter (Register.matches options hookDef)
                    currentHooks)) as [w|] eqn:E.
  - apply head_filter_Some in E as [Hin Hm]. apply matches_iff in Hm.
    split.
    + intros Hn. exfalso. apply Hn. exists w. tauto.
    + intros _. unfold Register.verifyWebhook.
      destruct (String.eqb_spec (Register.status w) "active") as [Ha|Hna].
      * by left.
      * right. exists w. simpl. tauto.
  - split; [done|]. intros (w & Hin & Hn & Ht). exfalso.
    pose proof (proj1 (head_filter_None _ _) E w Hin) as Hf.
    assert (Register.matches options hookDef w = true)
      by by apply matches_iff.
    congruence.
Qed.

Lemma registration_never_duplicates_witness :
  let options :=
    {| Register.url := "https://mydomain.com/webhook";
       Register.secret := "my secret";
       Register.hooks := [] |} in
  let hookDef :=
    {| Register.name := "Webhook Example";
       Register.events := ["message.sent"];
       Register.path := "webhook_example" |} in
  Register.registerHook options
    [ {| Register.id := "w1"; Register.status := "active";
         Register.config_name := "Other";
         Register.target_url := "https://mydomain.com/webhook/other" |} ]
    hookDef
  = [Register.RegisterCall "https://mydomain.com/webhook/webhook_example"
       ["message.sent"] "my secret" "Webhook Example"].
Proof.
  intros options hookDef.
  refine (proj1 (registration_never_duplicates options _ hookDef) _).
  intros (w & Hin & Hn & _).
  apply list_elem_of_singleton in Hin as ->. discriminate Hn.
Defined.

Lemma registerHook_length (options : Register.Options)
    (currentHooks : list Register.Webhook) (hookDef : Register.HookDef) :
  length (Register.registerHook options currentHooks hookDef) <= 1.
Proof.
  unfold Register.registerHook, Register.verifyWebhook,
    Register.registerWebhook.
  repeat case_match; simpl; lia.
Qed.

(** X19. A run of [register] makes at most one call per hook, none at all
    when the listing fails, and every webhook it registers has a target
    url that starts with the normalized base url and carries the caller's
    secret. *)
Theorem register_calls_are_bounded (reply : option (list Register.Webhook))
    (options : Register.Options) :
  let calls := (Register.register reply options).2 in
  length calls <= length (Register.hooks options)
  /\ (reply = None -> calls = [])
  /\ Forall (fun call =>
               match call with
               | Register.RegisterCall url _ secret _ =>
                   starts_with (Register.base_url options) url = true
                   /\ secret = Register.secret options
               | Register.Enable _ => True
               end) calls.
Proof.
  simpl. unfold Register.register. simpl.
  destruct reply as [currentHooks|]; simpl;
    [|split; [lia | split; [done | constructor]]].
  split; [|split; [done|]].
  - induction (Register.hooks options) as [|h hooks IH]; [done|].
    rewrite fmap_cons, fmap_cons. simpl. rewrite length_app.
    pose proof (registerHook_length options currentHooks
                  (Register.strip_path h)).
    simpl in *. lia.
  - apply Forall_concat, Forall_fmap, Forall_fmap, Forall_forall.
    intros h _. simpl.
    unfold Register.registerHook, Register.verifyWebhook,
      Register.registerWebhook.
    repeat case_match; repeat constructor. apply starts_with_append.
Qed.





(** ** From the listener to the processor *)


